(** * Binlog streamer: the event parser and transaction assembler

    A shallow embedding of [go/vt/binlog/binlog_streamer.go]:
    [getStatementCategory], the [begin]/[commit] closures, the event loop
    [parseEvents] and the session controller [Stream].

    Go strings are byte sequences and are modelled as [string] (a list of
    8-bit [ascii]).  A Go slice that may be [nil] is an [option (list _)]:
    [None] is the nil slice, [Some l] a non-nil slice holding [l].  A Go
    [error] is a value of the inductive type [error]; [None : option error]
    is the nil error. *)

From Stdlib Require Import ZArith NArith Ascii String List Lia.
From stdpp Require Import base option list strings gmap pretty.

Local Open Scope string_scope.

(** ** Bytes and strings *)

Module GoStrings.

(** [strings.IndexByte]: index of the first occurrence of [c], or -1. *)
Fixpoint IndexByte (s : string) (c : ascii) : Z :=
  match s with
  | EmptyString => (-1)%Z
  | String a rest =>
      if Ascii.eqb a c then 0%Z
      else let i := IndexByte rest c in
           if (i <? 0)%Z then (-1)%Z else (i + 1)%Z
  end.

(** The slice expression [s[:i]] for [0 <= i <= len(s)]. *)
Definition slice_to (s : string) (i : Z) : string :=
  substring 0 (Z.to_nat i) s.

Definition is_upper (a : ascii) : bool :=
  (65 <=? nat_of_ascii a)%nat && (nat_of_ascii a <=? 90)%nat.

(** ['A'..'Z'] moved by ['a' - 'A']; every other byte unchanged. *)
Definition lower_byte (a : ascii) : ascii :=
  if is_upper a then ascii_of_nat (nat_of_ascii a + 32) else a.

Fixpoint map_bytes (f : ascii → ascii) (s : string) : string :=
  match s with
  | EmptyString => EmptyString
  | String a rest => String (f a) (map_bytes f rest)
  end.

(** [c < utf8.RuneSelf] for every byte of the string. *)
Fixpoint isASCII (s : string) : bool :=
  match s with
  | EmptyString => true
  | String a rest => (nat_of_ascii a <? 128)%nat && isASCII rest
  end.

(** What [strings.ToLower] does to a string holding a byte >= 0x80: it
    decodes UTF-8 and maps every rune through [unicode.ToLower].  The
    Unicode case tables belong to the Go runtime, not to this package;
    they enter as a parameter. *)
Class Unicode := unicode_ToLower : string → string.

(** [strings.ToLower]. *)
Definition ToLower `{Unicode} (s : string) : string :=
  if isASCII s then map_bytes lower_byte s else unicode_ToLower s.

End GoStrings.
Export GoStrings.

(** ** binlogdata: statements, transactions, charsets *)

(** [BinlogTransaction_Statement_Category].  [BL_UNRECOGNIZED] is the zero
    value of the enumeration, hence what a lookup of a missing key in
    [statementPrefixes] yields. *)
Inductive Category : Type :=
| BL_UNRECOGNIZED
| BL_BEGIN
| BL_COMMIT
| BL_ROLLBACK
| BL_DML
| BL_DDL
| BL_SET.

#[global] Instance Category_eq_dec : EqDecision Category.
Proof. solve_decision. Defined.

(** [binlogdatapb.Charset]: three character-set ids, compared field by
    field by [*a != *b]. *)
Record Charset : Type := mkCharset {
  cs_Client : Z;
  cs_Conn : Z;
  cs_Server : Z;
}.

#[global] Instance Charset_eq_dec : EqDecision Charset.
Proof. solve_decision. Defined.

Record Statement : Type := mkStatement {
  st_Category : Category;
  st_Charset : option Charset;
  st_Sql : string;
}.

Record BinlogTransaction : Type := mkTransaction {
  tx_Statements : option (list Statement);
  tx_Timestamp : Z;
  tx_TransactionId : string;
}.

(** The elements of a slice; the nil slice has none. *)
Definition elems {A} (s : option (list A)) : list A := default [] s.

(** The built-in [append(s, xs...)]: appending to the nil slice allocates. *)
Definition append {A} (s : option (list A)) (xs : list A) : option (list A) :=
  Some (elems s ++ xs)%list.

(** ** The statement prefix table and the classifier *)

(** [statementPrefixes]. *)
Definition statementPrefixes : gmap string Category :=
  <["begin" := BL_BEGIN]> (
  <["commit" := BL_COMMIT]> (
  <["rollback" := BL_ROLLBACK]> (
  <["insert" := BL_DML]> (
  <["update" := BL_DML]> (
  <["delete" := BL_DML]> (
  <["create" := BL_DDL]> (
  <["alter" := BL_DDL]> (
  <["drop" := BL_DDL]> (
  <["truncate" := BL_DDL]> (
  <["rename" := BL_DDL]> (
  <["set" := BL_SET]> ∅))))))))))).

(** [getStatementCategory]. *)
Definition getStatementCategory `{Unicode} (sql : string) : Category :=
  let i := IndexByte sql " " in
  let sql := if (0 <=? i)%Z then slice_to sql i else sql in
  default BL_UNRECOGNIZED (statementPrefixes !! ToLower sql).

(** The classifier as the specification words it: the first
    whitespace-delimited token, lowercased, looked up in the prefix table. *)
Module SpecClassifier.

Definition is_space (a : ascii) : bool := Ascii.eqb a " ".

(** Space, tab, line feed, vertical tab, form feed, carriage return. *)
Definition is_whitespace (a : ascii) : bool :=
  let n := nat_of_ascii a in
  (n =? 32)%nat || ((9 <=? n)%nat && (n <=? 13)%nat).

(** The characters before the first delimiter. *)
Fixpoint token_until (delim : ascii → bool) (s : string) : string :=
  match s with
  | EmptyString => EmptyString
  | String a rest =>
      if delim a then EmptyString else String a (token_until delim rest)
  end.

Fixpoint skip (delim : ascii → bool) (s : string) : string :=
  match s with
  | EmptyString => EmptyString
  | String a rest => if delim a then skip delim rest else s
  end.

(** The first field of the string, fields being separated by runs of
    delimiters. *)
Definition first_token (delim : ascii → bool) (s : string) : string :=
  token_until delim (skip delim s).

(** The prefix table, row by row. *)
Definition prefix_table (token : string) : Category :=
  if String.eqb token "begin" then BL_BEGIN
  else if String.eqb token "commit" then BL_COMMIT
  else if String.eqb token "rollback" then BL_ROLLBACK
  else if String.eqb token "insert" || String.eqb token "update"
          || String.eqb token "delete" then BL_DML
  else if String.eqb token "create" || String.eqb token "alter"
          || String.eqb token "drop" || String.eqb token "truncate"
          || String.eqb token "rename" then BL_DDL
  else if String.eqb token "set" then BL_SET
  else BL_UNRECOGNIZED.

Definition classify `{Unicode} (sql : string) : Category :=
  prefix_table (ToLower (first_token is_whitespace sql)).

(** The same with the token cut at the first space byte only. *)
Definition classify_at_space `{Unicode} (sql : string) : Category :=
  prefix_table (ToLower (token_until is_space sql)).

End SpecClassifier.

(** ** Errors *)

(** Go compares errors by identity.  The two package-level sentinels and
    [io.EOF] are values of their own; every call of [fmt.Errorf] allocates a
    fresh value, equal to none of them, which only carries its message. *)
Inductive error : Type :=
| ErrClientEOF
| ErrServerEOF
| io_EOF
| Errorf (msg : string).

#[global] Instance error_eq_dec : EqDecision error.
Proof. solve_decision. Defined.

(** The method [Error()], also what the verb [%v] prints for an error. *)
Definition Error (e : error) : string :=
  match e with
  | ErrClientEOF => "binlog stream consumer ended the reply stream"
  | ErrServerEOF => "binlog stream connection was closed by mysqld"
  | io_EOF => "EOF"
  | Errorf msg => msg
  end.

(** ** The replication package, as this file uses it *)

(** The payload [ev.Query] returns. *)
Record Query : Type := mkQuery {
  q_Database : string;
  q_Charset : option Charset;
  q_SQL : string;
}.

(** [replication.Position], [replication.GTID], [replication.BinlogFormat]
    and the interface [replication.BinlogEvent] live in another package.
    The streamer only calls them, so they are an interface here as well.
    [GTID] is a Go interface type: [nilGTID] is its nil value.  A method
    with a Go result [(T, error)] returns [inl err] or [inr t];
    [StripChecksum] returns its event together with the error, because the
    caller prints that event when the call fails. *)
Class Replication : Type := {
  Position : Type;
  GTID : Type;
  BinlogFormat : Type;
  BinlogEvent : Type;
  nilGTID : GTID;
  EncodeGTID : GTID → string;
  AppendGTID : Position → GTID → Position;
  zeroFormat : BinlogFormat;
  IsZero : BinlogFormat → bool;
  IsValid : BinlogEvent → bool;
  IsFormatDescription : BinlogEvent → bool;
  IsRotate : BinlogEvent → bool;
  IsGTID : BinlogEvent → bool;
  IsXID : BinlogEvent → bool;
  IsIntVar : BinlogEvent → bool;
  IsRand : BinlogEvent → bool;
  IsQuery : BinlogEvent → bool;
  Format : BinlogEvent → error + BinlogFormat;
  StripChecksum : BinlogEvent → BinlogFormat → BinlogEvent * option error;
  HasGTID : BinlogEvent → BinlogFormat → bool;
  ev_GTID : BinlogEvent → BinlogFormat → error + GTID;
  IsBeginGTID : BinlogEvent → BinlogFormat → bool;
  Timestamp : BinlogEvent → N;
  IntVar : BinlogEvent → BinlogFormat → error + (string * N);
  Rand : BinlogEvent → BinlogFormat → error + (N * N);
  ev_Query : BinlogEvent → BinlogFormat → error + Query;
  (** what the verbs [%v] and [%#v] print *)
  fmtPosition : Position → string;
  fmtCharset : Charset → string;
  fmtEvent : BinlogEvent → string;
}.

(** ** The streamer *)

Section Streamer.
Context `{Unicode} `{Replication}.

(** [mysqlctl.SlaveConnection]: the server's charset, and the events the
    channel of [StartBinlogDump] delivers before it is closed. *)
Record SlaveConnection : Type := mkSlaveConnection {
  GetCharset : error + Charset;
  StartBinlogDump : Position → error + list BinlogEvent;
}.

Record MysqlDaemon : Type := mkMysqlDaemon {
  NewSlaveConnection : error + SlaveConnection;
}.

(** [sendTransactionFunc].  The callback is a closure and may keep state;
    its answer is a function of the transactions it was handed before and
    of the one it is handed now. *)
Definition sendTransactionFunc : Type :=
  list BinlogTransaction → BinlogTransaction → option error.

Record Streamer : Type := mkStreamer {
  dbname : string;
  mysqld : MysqlDaemon;
  clientCharset : option Charset;
  startPos : Position;
  sendTransaction : sendTransactionFunc;
}.

(** [sync2.ServiceContext], seen from the loop: [Some n] when the service
    is found shutting down (or no longer running) once [n] events have been
    received, [None] when it keeps running. *)
Definition ServiceContext : Type := option nat.

(** What the loop does to the outside, oldest first: a GTID folded into the
    position, a transaction handed to [sendTransaction]. *)
Inductive effect : Type :=
| Folded (g : GTID)
| Sent (trans : BinlogTransaction).

Definition sent_of (e : effect) : option BinlogTransaction :=
  match e with Sent trans => Some trans | Folded _ => None end.

Definition folded_of (e : effect) : option GTID :=
  match e with Folded g => Some g | Sent _ => None end.

(** The local variables of [parseEvents], the [ParseEvents] bucket of the
    counter [binlogStreamerErrors], and the effects so far. *)
Record State : Type := mkState {
  statements : option (list Statement);
  format : BinlogFormat;
  gtid : GTID;
  pos : Position;
  autocommit : bool;
  parseErrors : nat;
  trace : list effect;
}.

Definition sent (st : State) : list BinlogTransaction := omap sent_of (trace st).

Definition set_statements (v : option (list Statement)) (st : State) : State :=
  mkState v (format st) (gtid st) (pos st) (autocommit st) (parseErrors st) (trace st).

Definition set_format (v : BinlogFormat) (st : State) : State :=
  mkState (statements st) v (gtid st) (pos st) (autocommit st) (parseErrors st) (trace st).

Definition set_autocommit (v : bool) (st : State) : State :=
  mkState (statements st) (format st) (gtid st) (pos st) v (parseErrors st) (trace st).

Definition count_error (st : State) : State :=
  mkState (statements st) (format st) (gtid st) (pos st) (autocommit st)
    (S (parseErrors st)) (trace st).

Definition record (e : effect) (st : State) : State :=
  mkState (statements st) (format st) (gtid st) (pos st) (autocommit st)
    (parseErrors st) (trace st ++ [e]).

(** [gtid = g; pos = replication.AppendGTID(pos, gtid)]. *)
Definition fold_gtid (g : GTID) (st : State) : State :=
  mkState (statements st) (format st) g (AppendGTID (pos st) g) (autocommit st)
    (parseErrors st) (trace st ++ [Folded g]).

(** The variables as [parseEvents] declares them. *)
Definition initial (bls : Streamer) : State :=
  mkState None zeroFormat nilGTID (startPos bls) true 0 [].

(** One turn of the loop either goes on to the next turn or returns; every
    [return] inside the loop returns the current [pos] and a non-nil error. *)
Inductive flow : Type :=
| Continue (st : State)
| Return (st : State) (err : error).

(** The closure [begin]. *)
Definition begin (st : State) : State :=
  let st := match statements st with
            | Some _ => count_error st
            | None => st
            end in
  set_autocommit false (set_statements (Some []) st).

(** The closure [commit]. *)
Definition commit (bls : Streamer) (timestamp : N) (st : State) : flow :=
  let trans := {| tx_Statements := statements st;
                  tx_Timestamp := Z.of_N timestamp;
                  tx_TransactionId := EncodeGTID (gtid st) |} in
  match sendTransaction bls (sent st) trans with
  | Some err =>
      Return (record (Sent trans) st)
        (match err with
         | io_EOF => ErrClientEOF
         | _ => Errorf ("send reply error: " +:+ Error err)
         end)
  | None =>
      Continue (set_autocommit true (set_statements None (record (Sent trans) st)))
  end.

(** The condition under which the default arm attaches the charset of the
    event to its two statements. *)
Definition attach_charset (bls : Streamer) (q : Query) : bool :=
  match clientCharset bls with
  | None => true
  | Some client =>
      match q_Charset q with
      | Some c => bool_decide (c ≠ client)
      | None => false
      end
  end.

(** The arm [case ev.IsQuery()]. *)
Definition on_query (bls : Streamer) (st : State) (ev : BinlogEvent) : flow :=
  match ev_Query ev (format st) with
  | inl err =>
      Return st (Errorf ("can't get query from binlog event: " +:+ Error err
                         +:+ ", event data: " +:+ fmtEvent ev))
  | inr q =>
      match getStatementCategory (q_SQL q) with
      | BL_BEGIN => Continue (begin st)
      | BL_ROLLBACK => commit bls (Timestamp ev) (set_statements None st)
      | BL_COMMIT => commit bls (Timestamp ev) st
      | cat =>
          if negb (String.eqb (q_Database q) "")
             && negb (String.eqb (q_Database q) (dbname bls))
          then Continue st
          else
            let charset := if attach_charset bls q then q_Charset q else None in
            let setTimestamp :=
              {| st_Category := BL_SET;
                 st_Charset := charset;
                 st_Sql := "SET TIMESTAMP=" +:+ pretty (Timestamp ev) |} in
            let statement :=
              {| st_Category := cat;
                 st_Charset := charset;
                 st_Sql := q_SQL q |} in
            let st := set_statements
                        (append (statements st) [setTimestamp; statement]) st in
            if autocommit st then commit bls (Timestamp ev) st else Continue st
      end
  end.

(** The [switch] on the kind of the event; the first case that holds wins. *)
Definition dispatch (bls : Streamer) (st : State) (ev : BinlogEvent) : flow :=
  if IsGTID ev then
    if IsBeginGTID ev (format st) then Continue (begin st) else Continue st
  else if IsXID ev then commit bls (Timestamp ev) st
  else if IsIntVar ev then
    match IntVar ev (format st) with
    | inl err =>
        Return st (Errorf ("can't parse INTVAR_EVENT: " +:+ Error err
                           +:+ ", event data: " +:+ fmtEvent ev))
    | inr (name, value) =>
        Continue (set_statements
                    (append (statements st)
                       [ {| st_Category := BL_SET;
                            st_Charset := None;
                            st_Sql := "SET " +:+ name +:+ "=" +:+ pretty value |} ])
                    st)
    end
  else if IsRand ev then
    match Rand ev (format st) with
    | inl err =>
        Return st (Errorf ("can't parse RAND_EVENT: " +:+ Error err
                           +:+ ", event data: " +:+ fmtEvent ev))
    | inr (seed1, seed2) =>
        Continue (set_statements
                    (append (statements st)
                       [ {| st_Category := BL_SET;
                            st_Charset := None;
                            st_Sql := "SET @@RAND_SEED1=" +:+ pretty seed1
                                      +:+ ", @@RAND_SEED2=" +:+ pretty seed2 |} ])
                    st)
    end
  else if IsQuery ev then on_query bls st ev
  else Continue st.

(** The update of the GTID, for an event that carries one. *)
Definition absorb (st : State) (ev : BinlogEvent) : flow :=
  if HasGTID ev (format st) then
    match ev_GTID ev (format st) with
    | inl err =>
        Return st (Errorf ("can't get GTID from binlog event: " +:+ Error err
                           +:+ ", event data: " +:+ fmtEvent ev))
    | inr g => Continue (fold_gtid g st)
    end
  else Continue st.

(** The body of the loop, for the event [ev] received from the channel. *)
Definition handle (bls : Streamer) (st : State) (ev : BinlogEvent) : flow :=
  if negb (IsValid ev) then
    Return st (Errorf ("can't parse binlog event, invalid data: " +:+ fmtEvent ev))
  else if IsFormatDescription ev then
    match Format ev with
    | inl err =>
        Return st (Errorf ("can't parse FORMAT_DESCRIPTION_EVENT: " +:+ Error err
                           +:+ ", event data: " +:+ fmtEvent ev))
    | inr f => Continue (set_format f st)
    end
  else if IsZero (format st) then
    if IsRotate ev then Continue st
    else Return st (Errorf ("got a real event before FORMAT_DESCRIPTION_EVENT: "
                            +:+ fmtEvent ev))
  else
    match StripChecksum ev (format st) with
    | (ev, Some err) =>
        Return st (Errorf ("can't strip checksum from binlog event: " +:+ Error err
                           +:+ ", event data: " +:+ fmtEvent ev))
    | (ev, None) =>
        match absorb st ev with
        | Return st err => Return st err
        | Continue st => dispatch bls st ev
        end
    end.

(** The loop [for ctx.IsRunning() { select ... }] over the events the channel
    delivers.  The result is the state at the [return] and the error
    returned; the position returned is [pos] of that state. *)
Fixpoint loop (bls : Streamer) (ctx : ServiceContext) (events : list BinlogEvent)
    (st : State) : State * option error :=
  match ctx with
  | Some O => (st, None)
  | _ =>
      match events with
      | [] => (st, Some ErrServerEOF)
      | ev :: rest =>
          match handle bls st ev with
          | Return st err => (st, Some err)
          | Continue st => loop bls (Nat.pred <$> ctx) rest st
          end
      end
  end.

(** [parseEvents]. *)
Definition parseEvents (bls : Streamer) (ctx : ServiceContext)
    (events : list BinlogEvent) : State * option error :=
  loop bls ctx events (initial bls).

(** The statements of [Stream] before its deferred function runs: the
    position [stopPos], the transactions sent, and the error.  Closing the
    connection and writing the log change none of the three and are left
    out. *)
Definition Stream_run (bls : Streamer) (ctx : ServiceContext)
    : Position * list BinlogTransaction * option error :=
  match NewSlaveConnection (mysqld bls) with
  | inl err => (startPos bls, [], Some err)
  | inr conn =>
      let check :=
        match clientCharset bls with
        | None => None
        | Some client =>
            match GetCharset conn with
            | inl err =>
                Some (Errorf ("can't get charset to check binlog stream: "
                              +:+ Error err))
            | inr cs =>
                if bool_decide (cs ≠ client) then
                  Some (Errorf ("binlog stream client charset (" +:+ fmtCharset client
                                +:+ ") doesn't match server (" +:+ fmtCharset cs +:+ ")"))
                else None
            end
        end in
      match check with
      | Some err => (startPos bls, [], Some err)
      | None =>
          match StartBinlogDump conn (startPos bls) with
          | inl err => (startPos bls, [], Some err)
          | inr events =>
              let '(st, err) := parseEvents bls ctx events in
              (pos st, sent st, err)
          end
      end
  end.

(** [Stream]: the deferred function replaces every non-nil error by
    [fmt.Errorf("stream error @ %v: %v", stopPos, err)]. *)
Definition Stream (bls : Streamer) (ctx : ServiceContext)
    : list BinlogTransaction * option error :=
  let '(stopPos, out, err) := Stream_run bls ctx in
  (out,
   match err with
   | Some err =>
       Some (Errorf ("stream error @ " +:+ fmtPosition stopPos +:+ ": " +:+ Error err))
   | None => None
   end).

End Streamer.

(** ** Reachable loop states, and words for the properties below *)

Section Vocabulary.
Context `{Unicode} `{Replication}.

(** The states the loop is in between two events. *)
Inductive reachable (bls : Streamer) : State → Prop :=
| reachable_initial : reachable bls (initial bls)
| reachable_handle st ev st' :
    reachable bls st → handle bls st ev = Continue st' → reachable bls st'.

(** The pending buffer is non-absent exactly when [autocommit] is false. *)
Definition pending_iff_explicit (st : State) : Prop :=
  statements st ≠ None ↔ autocommit st = false.

(** The state a turn of the loop ends in, whichever way it ends. *)
Definition state_of (f : flow) : State :=
  match f with
  | Continue st => st
  | Return st _ => st
  end.

(** The GTID most recently folded into the position, if any. *)
Definition last_folded (tr : list effect) : option GTID :=
  last (omap folded_of tr).

(** The statements the default arm of a query event builds. *)
Definition query_statements (bls : Streamer) (ts : N) (q : Query) : list Statement :=
  let charset := if attach_charset bls q then q_Charset q else None in
  [ mkStatement BL_SET charset ("SET TIMESTAMP=" +:+ pretty ts);
    mkStatement (getStatementCategory (q_SQL q)) charset (q_SQL q) ].

(** [derived_from bls f ev s]: under the format [f], the event [ev] is one
    from which the statement [s] is made, and [ev] is not a query event on
    another database. *)
Definition derived_from (bls : Streamer) (f : BinlogFormat) (ev : BinlogEvent)
    (s : Statement) : Prop :=
  let ev' := fst (StripChecksum ev f) in
  (∃ name value, IntVar ev' f = inr (name, value)
      ∧ s = mkStatement BL_SET None ("SET " +:+ name +:+ "=" +:+ pretty value))
  ∨ (∃ seed1 seed2, Rand ev' f = inr (seed1, seed2)
      ∧ s = mkStatement BL_SET None
              ("SET @@RAND_SEED1=" +:+ pretty seed1
               +:+ ", @@RAND_SEED2=" +:+ pretty seed2))
  ∨ (∃ q, ev_Query ev' f = inr q
      ∧ (q_Database q = "" ∨ q_Database q = dbname bls)
      ∧ s ∈ query_statements bls (Timestamp ev') q).

(** The GTID an event carries: decoded, under the current format, from the
    event once its checksum is stripped. *)
Definition event_gtid (st : State) (ev : BinlogEvent) : option GTID :=
  match ev_GTID (fst (StripChecksum ev (format st))) (format st) with
  | inr g => Some g
  | inl _ => None
  end.

(** The current [gtid] is the one folded last, and every transaction sent
    carries the serialization of the GTID folded last before it. *)
Definition ids_follow_folds (st : State) : Prop :=
  (∀ g, last_folded (trace st) = Some g → gtid st = g)
  ∧ (∀ pre trans post g,
       trace st = (pre ++ Sent trans :: post)%list →
       last_folded pre = Some g →
       tx_TransactionId trans = EncodeGTID g).

(** A property of states kept by every assignment of the loop body other
    than the fold of a GTID. *)
Record closed_under_assignments (P : State → Prop) : Prop := {
  closed_statements v st : P st → P (set_statements v st);
  closed_format v st : P st → P (set_format v st);
  closed_autocommit v st : P st → P (set_autocommit v st);
  closed_count st : P st → P (count_error st);
  closed_send ts st :
    P st →
    P (record (Sent (mkTransaction (statements st) ts (EncodeGTID (gtid st)))) st);
}.


(** Every statement in the buffer or in a transaction sent was made from
    one of the events [seen], none of them a query on another database. *)
Definition sourced (bls : Streamer) (seen : list BinlogEvent) (st : State) : Prop :=
  ∀ s,
    (s ∈ elems (statements st)
     ∨ ∃ trans, Sent trans ∈ trace st ∧ s ∈ elems (tx_Statements trans)) →
    ∃ ev f, ev ∈ seen ∧ derived_from bls f ev s.

End Vocabulary.

(** ** A scripted event source

    Events that answer the methods of [replication.BinlogEvent] from their
    constructor, over any type of GTIDs; positions are the lists of the
    GTIDs folded so far, and a format is its header length. *)

Module Fake.
Section Fake.
Context {G : Type} (nil_g : G) (encode : G → string).

Inductive event : Type :=
| invalidEvent
| rotateEvent
| formatEvent (headerLength : nat)
| gtidEvent (g : G) (isBegin : bool)
| xidEvent (ts : N)
| intVarEvent (name : string) (value : N) (ts : N)
| randEvent (seed1 seed2 : N) (ts : N)
| queryEvent (q : Query) (ts : N).

Definition timestamp (ev : event) : N :=
  match ev with
  | xidEvent ts | intVarEvent _ _ ts | randEvent _ _ ts | queryEvent _ ts => ts
  | _ => 0%N
  end.

Definition kind (ev : event) : string :=
  match ev with
  | invalidEvent => "invalid"
  | rotateEvent => "rotate"
  | formatEvent _ => "format"
  | gtidEvent _ _ => "gtid"
  | xidEvent _ => "xid"
  | intVarEvent _ _ _ => "intvar"
  | randEvent _ _ _ => "rand"
  | queryEvent _ _ => "query"
  end.

Definition wrong_kind {A} : error + A := inl (Errorf "wrong event kind").

Definition replication : Replication := {|
  Position := list G;
  GTID := G;
  BinlogFormat := nat;
  BinlogEvent := event;
  nilGTID := nil_g;
  EncodeGTID := encode;
  AppendGTID := λ p g, (p ++ [g])%list;
  zeroFormat := 0;
  IsZero := λ f, Nat.eqb f 0;
  IsValid := λ ev, match ev with invalidEvent => false | _ => true end;
  IsFormatDescription := λ ev, match ev with formatEvent _ => true | _ => false end;
  IsRotate := λ ev, match ev with rotateEvent => true | _ => false end;
  IsGTID := λ ev, match ev with gtidEvent _ _ => true | _ => false end;
  IsXID := λ ev, match ev with xidEvent _ => true | _ => false end;
  IsIntVar := λ ev, match ev with intVarEvent _ _ _ => true | _ => false end;
  IsRand := λ ev, match ev with randEvent _ _ _ => true | _ => false end;
  IsQuery := λ ev, match ev with queryEvent _ _ => true | _ => false end;
  Format := λ ev, match ev with formatEvent n => inr n | _ => wrong_kind end;
  StripChecksum := λ ev _, (ev, None);
  HasGTID := λ ev _, match ev with gtidEvent _ _ => true | _ => false end;
  ev_GTID := λ ev _, match ev with gtidEvent g _ => inr g | _ => wrong_kind end;
  IsBeginGTID := λ ev _, match ev with gtidEvent _ b => b | _ => false end;
  Timestamp := timestamp;
  IntVar := λ ev _, match ev with
                    | intVarEvent name value _ => inr (name, value)
                    | _ => wrong_kind
                    end;
  Rand := λ ev _, match ev with
                  | randEvent seed1 seed2 _ => inr (seed1, seed2)
                  | _ => wrong_kind
                  end;
  ev_Query := λ ev _, match ev with queryEvent q _ => inr q | _ => wrong_kind end;
  fmtPosition := λ p, String.concat "," (encode <$> p);
  fmtCharset := λ c, pretty (cs_Client c) +:+ "/" +:+ pretty (cs_Conn c)
                     +:+ "/" +:+ pretty (cs_Server c);
  fmtEvent := kind;
|}.

End Fake.

Arguments event : clear implicits.

(** On pure ASCII text [strings.ToLower] never consults the Unicode
    tables; the scripted runs below only use such text. *)
Definition ascii_text : Unicode := λ s, s.

(** A consumer that takes every transaction. *)
Definition accept_all : list BinlogTransaction → BinlogTransaction → option error :=
  λ _ _, None.

(** A consumer that reports end-of-stream on the first transaction. *)
Definition refuse_all : list BinlogTransaction → BinlogTransaction → option error :=
  λ _ _, Some io_EOF.

End Fake.

(** ** Scripted sessions *)

Module Scenarios.
Section Scenarios.
Context {G : Type} (nil_g : G) (encode : G → string).

#[local] Instance scripted_unicode : Unicode := Fake.ascii_text.
#[local] Instance scripted_replication : Replication := Fake.replication nil_g encode.

(** A daemon whose connection delivers [events] and is then closed by the
    server; its charset is [server]. *)
Definition daemon (server : Charset) (events : list (Fake.event G)) : MysqlDaemon :=
  mkMysqlDaemon (inr (mkSlaveConnection (inr server) (λ _, inr events))).

Definition utf8 : Charset := mkCharset 33 33 33.
Definition latin1 : Charset := mkCharset 8 8 8.

Definition streamer (db : string) (client : option Charset) (start : list G)
    (send : sendTransactionFunc) (events : list (Fake.event G)) : Streamer :=
  mkStreamer db (daemon utf8 events) client start send.

(** FORMAT_DESC; GTID(g1); QUERY(db=targetdb, "insert into t values(1)",
    ts=100); XID(ts=100). *)
Definition autocommit_insert (targetdb : string) (g1 : G) : list (Fake.event G) :=
  [ Fake.formatEvent 19;
    Fake.gtidEvent g1 false;
    Fake.queryEvent (mkQuery targetdb None "insert into t values(1)") 100;
    Fake.xidEvent 100 ].

(** The same with the begin flag set on the GTID event. *)
Definition explicit_insert (targetdb : string) (g1 : G) : list (Fake.event G) :=
  [ Fake.formatEvent 19;
    Fake.gtidEvent g1 true;
    Fake.queryEvent (mkQuery targetdb None "insert into t values(1)") 100;
    Fake.xidEvent 100 ].

(** The transaction the insert of these two scripts ends up in. *)
Definition insert_transaction (g1 : G) : BinlogTransaction :=
  {| tx_Statements :=
       Some [ mkStatement BL_SET None "SET TIMESTAMP=100";
              mkStatement BL_DML None "insert into t values(1)" ];
     tx_Timestamp := 100;
     tx_TransactionId := encode g1 |}.

(** A transaction without statements. *)
Definition empty_transaction (ts : Z) (g1 : G) : BinlogTransaction :=
  {| tx_Statements := None; tx_Timestamp := ts; tx_TransactionId := encode g1 |}.

(** FORMAT_DESC; GTID(g1, begin); QUERY("insert ...", ts=5);
    QUERY("rollback", ts=6). *)
Definition rolled_back (db : string) (g1 : G) : list (Fake.event G) :=
  [ Fake.formatEvent 19;
    Fake.gtidEvent g1 true;
    Fake.queryEvent (mkQuery db None "insert into t values(2)") 5;
    Fake.queryEvent (mkQuery db None "rollback") 6 ].

(** FORMAT_DESC; GTID(g1); QUERY(db="other", "insert ...", ts=7); XID(ts=7). *)
Definition cross_db (g1 : G) : list (Fake.event G) :=
  [ Fake.formatEvent 19;
    Fake.gtidEvent g1 false;
    Fake.queryEvent (mkQuery "other" None "insert into t values(3)") 7;
    Fake.xidEvent 7 ].

(** FORMAT_DESC; GTID(g1, begin); QUERY(db="other", "insert ...", ts=7);
    QUERY(db, "insert into t values(1)", ts=100); XID(ts=100). *)
Definition mixed_db (db : string) (g1 : G) : list (Fake.event G) :=
  [ Fake.formatEvent 19;
    Fake.gtidEvent g1 true;
    Fake.queryEvent (mkQuery "other" None "insert into t values(3)") 7;
    Fake.queryEvent (mkQuery db None "insert into t values(1)") 100;
    Fake.xidEvent 100 ].


(** FORMAT_DESC; INTVAR(INSERT_ID=7), outside any explicit transaction. *)
Definition lone_intvar : list (Fake.event G) :=
  [ Fake.formatEvent 19; Fake.intVarEvent "INSERT_ID" 7 50 ].

End Scenarios.

(** GTIDs that are their own serialization. *)
Definition plain_replication : Replication :=
  scripted_replication "" (λ g : string, g).

(** A streamer over them, starting at the empty position, for a daemon that
    delivers [events]. *)
Definition plain (db : string) (client : option Charset)
    (send : list BinlogTransaction → BinlogTransaction → option error)
    (events : list (Fake.event string)) :=
  streamer "" (λ g : string, g) db client [] send events.

End Scenarios.

(** ** Words for further properties of the loop *)

Section Histories.
Context `{Unicode} `{Replication}.

(** [NewStreamer]; the field [conn] is nil until [Stream] opens the
    connection. *)
Definition NewStreamer (dbname : string) (mysqld : MysqlDaemon)
    (clientCharset : option Charset) (startPos : Position)
    (sendTransaction : sendTransactionFunc) : Streamer :=
  mkStreamer dbname mysqld clientCharset startPos sendTransaction.

(** The position reached from [start] by the folds of a trace. *)
Definition position_after (start : Position) (tr : list effect) : Position :=
  foldl AppendGTID start (omap folded_of tr).

(** The consumer took every transaction of the trace: each call of
    [sendTransaction], made with the transactions sent before it, returned
    nil. *)
Definition accepted (bls : Streamer) (tr : list effect) : Prop :=
  ∀ pre trans post,
    tr = (pre ++ Sent trans :: post)%list →
    sendTransaction bls (omap sent_of pre) trans = None.

(** The same for every transaction that is not the last effect. *)
Definition accepted_but_last (bls : Streamer) (tr : list effect) : Prop :=
  ∀ pre trans post,
    tr = (pre ++ Sent trans :: post)%list → post ≠ [] →
    sendTransaction bls (omap sent_of pre) trans = None.

(** What [commit] turns the answer of the consumer into. *)
Definition send_error (err : error) : error :=
  match err with
  | io_EOF => ErrClientEOF
  | _ => Errorf ("send reply error: " +:+ Error err)
  end.

(** What the switch on the kind of an event with timestamp [ts] can come
    to, from the state [st]: it goes on or fails without sending, or it
    sends one transaction, which the consumer takes or refuses.  The GTID
    and the position stay as they are. *)
Inductive outcome (bls : Streamer) (st : State) (ts : N) : flow → Prop :=
| outcome_quiet st' :
    trace st' = trace st → gtid st' = gtid st → pos st' = pos st →
    outcome bls st ts (Continue st')
| outcome_failed st' msg :
    trace st' = trace st → gtid st' = gtid st → pos st' = pos st →
    outcome bls st ts (Return st' (Errorf msg))
| outcome_sent stmts st' :
    trace st'
    = (trace st ++ [Sent (mkTransaction stmts (Z.of_N ts) (EncodeGTID (gtid st)))])%list →
    gtid st' = gtid st → pos st' = pos st →
    sendTransaction bls (sent st)
      (mkTransaction stmts (Z.of_N ts) (EncodeGTID (gtid st))) = None →
    outcome bls st ts (Continue st')
| outcome_refused stmts st' err :
    trace st'
    = (trace st ++ [Sent (mkTransaction stmts (Z.of_N ts) (EncodeGTID (gtid st)))])%list →
    gtid st' = gtid st → pos st' = pos st →
    sendTransaction bls (sent st)
      (mkTransaction stmts (Z.of_N ts) (EncodeGTID (gtid st))) = Some err →
    outcome bls st ts (Return st' (send_error err)).

(** The statements of a buffer come in groups, in the order of the events
    they were made from: one SET statement without charset for an INTVAR or
    RAND event; for a query event the SET TIMESTAMP statement and, right
    after it, the statement itself, both with the same charset field, the
    statement being no BEGIN, COMMIT or ROLLBACK. *)
Inductive grouped : list Statement → Prop :=
| grouped_nil : grouped []
| grouped_var l sql :
    grouped l → grouped (l ++ [mkStatement BL_SET None sql])%list
| grouped_query l charset (ts : N) cat sql :
    grouped l →
    cat ∉ [BL_BEGIN; BL_COMMIT; BL_ROLLBACK] →
    grouped (l ++ [ mkStatement BL_SET charset ("SET TIMESTAMP=" +:+ pretty ts);
                    mkStatement cat charset sql ])%list.

(** The buffer and every transaction sent are grouped. *)
Definition all_grouped (st : State) : Prop :=
  grouped (elems (statements st))
  ∧ ∀ trans, Sent trans ∈ trace st → grouped (elems (tx_Statements trans)).

(** [group_of bls f ev l]: under the format [f], [l] is the group of
    statements the loop makes from the event [ev], its checksum stripped:
    the SET statement of an event the switch takes for an INTVAR or for a
    RAND event; or, for one it takes for a query event that is no BEGIN,
    COMMIT or ROLLBACK and is not on another database, its SET TIMESTAMP
    statement followed by the statement itself. *)
Definition group_of (bls : Streamer) (f : BinlogFormat) (ev : BinlogEvent)
    (l : list Statement) : Prop :=
  let ev' := fst (StripChecksum ev f) in
  IsGTID ev' = false ∧ IsXID ev' = false
  ∧ ((IsIntVar ev' = true
      ∧ ∃ name value, IntVar ev' f = inr (name, value)
          ∧ l = [mkStatement BL_SET None
                   ("SET " +:+ name +:+ "=" +:+ pretty value)])
     ∨ (IsIntVar ev' = false ∧ IsRand ev' = true
        ∧ ∃ seed1 seed2, Rand ev' f = inr (seed1, seed2)
            ∧ l = [mkStatement BL_SET None
                     ("SET @@RAND_SEED1=" +:+ pretty seed1
                      +:+ ", @@RAND_SEED2=" +:+ pretty seed2)])
     ∨ (IsIntVar ev' = false ∧ IsRand ev' = false ∧ IsQuery ev' = true
        ∧ ∃ q, ev_Query ev' f = inr q
            ∧ (getStatementCategory (q_SQL q)
               ∉ [BL_BEGIN; BL_COMMIT; BL_ROLLBACK])
            ∧ (q_Database q = "" ∨ q_Database q = dbname bls)
            ∧ l = query_statements bls (Timestamp ev') q)).

(** [made_from bls events l]: [l] is the concatenation of the groups made
    from some of the [events], each event used at most once, the groups in
    the order of their events. *)
Inductive made_from (bls : Streamer) : list BinlogEvent → list Statement → Prop :=
| made_nil : made_from bls [] []
| made_skip events ev l :
    made_from bls events l → made_from bls (events ++ [ev])%list l
| made_group events ev f l g :
    made_from bls events l → group_of bls f ev g →
    made_from bls (events ++ [ev])%list (l ++ g)%list.

(** The buffer and every transaction sent are made from the events [seen]. *)
Definition all_made (bls : Streamer) (seen : list BinlogEvent) (st : State) : Prop :=
  made_from bls seen (elems (statements st))
  ∧ ∀ trans, Sent trans ∈ trace st →
             made_from bls seen (elems (tx_Statements trans)).

End Histories.

(** * Properties *)

Local Open Scope list_scope.

(** ** The classifier *)

Section Classifier.
Context `{Unicode}.
Import SpecClassifier.

Lemma IndexByte_lower_bound s c : (-1 <= IndexByte s c)%Z.
Proof.
  induction s as [|a s IH]; simpl; [lia|].
  destruct (Ascii.eqb a c); [lia|].
  destruct (Z.ltb_spec (IndexByte s c) 0); lia.
Qed.

(** Cutting at the index [IndexByte] returns keeps the bytes before the
    first space. *)
Lemma slice_at_first_space s :
  (if (0 <=? IndexByte s " ")%Z then slice_to s (IndexByte s " ") else s)
  = token_until is_space s.
Proof.
  induction s as [|a s IH]; [reflexivity|].
  cbn [IndexByte token_until]. unfold is_space at 1.
  destruct (Ascii.eqb a " "); [reflexivity|].
  pose proof (IndexByte_lower_bound s " ") as Hlb.
  destruct (Z.ltb_spec (IndexByte s " ") 0) as [Hneg|Hpos].
  - destruct (Z.leb_spec 0 (IndexByte s " ")) as [|_]; [lia|].
    cbn. now rewrite <- IH.
  - destruct (Z.leb_spec 0 (IndexByte s " ")) as [_|]; [|lia].
    destruct (Z.leb_spec 0 (IndexByte s " " + 1)) as [_|]; [|lia].
    rewrite <- IH. unfold slice_to.
    replace (Z.to_nat (IndexByte s " " + 1))
      with (S (Z.to_nat (IndexByte s " "))) by lia.
    reflexivity.
Qed.

(** The map holds the twelve rows of the table and nothing else. *)
Lemma statementPrefixes_lookup (token : string) :
  default BL_UNRECOGNIZED (statementPrefixes !! token) = prefix_table token.
Proof.
  unfold prefix_table, statementPrefixes.
  repeat match goal with
  | |- context [String.eqb token ?k] =>
      destruct (String.eqb_spec token k) as [->|?]; [reflexivity|]
  end.
  cbn [orb].
  rewrite !lookup_insert_ne by congruence.
  reflexivity.
Qed.

(** C4, as amended: for every SQL string the classifier takes the bytes
    before the first space character (the whole string when it has none),
    lowercases them, and looks the result up in the prefix table; what is
    not in the table is [BL_UNRECOGNIZED]. *)
Theorem getStatementCategory_first_space_token (sql : string) :
  getStatementCategory sql = classify_at_space sql.
Proof.
  unfold getStatementCategory, classify_at_space. cbv zeta.
  rewrite slice_at_first_space. apply statementPrefixes_lookup.
Qed.

End Classifier.

(** C4, as stated, fails: a tab ends the first whitespace-delimited token
    of ["insert<TAB>into t"], which is then a DML, but the classifier only
    cuts at a space and does not recognize ["insert<TAB>into"]. *)
Lemma getStatementCategory_tab_counterexample :
  ¬ (∀ (U : Unicode) (sql : string),
       getStatementCategory sql = SpecClassifier.classify sql).
Proof.
  intros Hall.
  specialize (Hall Fake.ascii_text ("insert" +:+ String "009"%char "into t")).
  vm_compute in Hall. discriminate Hall.
Qed.

(** ** The loop *)

Section Loop.
Context `{Unicode} `{Replication}.

(** *** Properties kept by the assignments of the body *)

Section Closed.
Variables (P : State → Prop) (bls : Streamer).
Hypothesis HP : closed_under_assignments P.

Lemma begin_closed st : P st → P (begin st).
Proof.
  intros Hst. unfold begin.
  apply HP, HP. destruct (statements st); [apply HP|]; exact Hst.
Qed.

Lemma commit_closed ts st : P st → P (state_of (commit bls ts st)).
Proof.
  intros Hst. unfold commit.
  destruct (sendTransaction bls _ _); cbn [state_of].
  - now apply HP.
  - now apply HP, HP, HP.
Qed.

Lemma on_query_closed st ev : P st → P (state_of (on_query bls st ev)).
Proof.
  intros Hst. unfold on_query.
  destruct (ev_Query ev (format st)) as [err|q]; [exact Hst|].
  destruct (getStatementCategory (q_SQL q));
    try (apply begin_closed; exact Hst);
    try (apply commit_closed; try apply HP; exact Hst);
    (destruct (negb _ && negb _); [exact Hst|];
     match goal with
     | |- context [if autocommit ?s then _ else _] =>
         assert (P s) by (apply HP; exact Hst); destruct (autocommit s)
     end; [now apply commit_closed | assumption]).
Qed.

Lemma dispatch_closed st ev : P st → P (state_of (dispatch bls st ev)).
Proof.
  intros Hst. unfold dispatch.
  destruct (IsGTID ev).
  { destruct (IsBeginGTID ev (format st)); [now apply begin_closed | exact Hst]. }
  destruct (IsXID ev); [now apply commit_closed|].
  destruct (IsIntVar ev).
  { destruct (IntVar ev (format st)) as [?|[name value]];
      [exact Hst | now apply HP]. }
  destruct (IsRand ev).
  { destruct (Rand ev (format st)) as [?|[seed1 seed2]];
      [exact Hst | now apply HP]. }
  destruct (IsQuery ev); [now apply on_query_closed | exact Hst].
Qed.

(** With the fold of a GTID kept as well, the whole body keeps [P]. *)
Lemma handle_closed st ev :
  (∀ g st, P st → P (fold_gtid g st)) →
  P st → P (state_of (handle bls st ev)).
Proof.
  intros Hfold Hst. unfold handle.
  destruct (negb (IsValid ev)); [exact Hst|].
  destruct (IsFormatDescription ev).
  { destruct (Format ev); [exact Hst | now apply HP]. }
  destruct (IsZero (format st)).
  { destruct (IsRotate ev); exact Hst. }
  destruct (StripChecksum ev (format st)) as [ev' [err|]]; [exact Hst|].
  unfold absorb.
  destruct (HasGTID ev' (format st)); [|now apply dispatch_closed].
  destruct (ev_GTID ev' (format st)) as [err|g]; [exact Hst|].
  now apply dispatch_closed, Hfold.
Qed.

Lemma loop_closed ctx events st :
  (∀ g st, P st → P (fold_gtid g st)) →
  P st → P (fst (loop bls ctx events st)).
Proof.
  intros Hfold. revert ctx st.
  induction events as [|ev rest IH]; intros ctx st Hst.
  - destruct ctx as [[|n]|]; exact Hst.
  - assert (P (state_of (handle bls st ev))) as Hnext by now apply handle_closed.
    destruct ctx as [[|n]|]; cbn [loop]; try exact Hst;
      destruct (handle bls st ev); cbn [state_of] in Hnext; try exact Hnext;
      now apply IH.
Qed.

End Closed.

(** *** Positions, GTIDs and transaction ids *)

Lemma snoc_split {A} (tr pre post : list A) (e x : A) :
  (tr ++ [e] = pre ++ x :: post)%list →
  (post = [] ∧ pre = tr ∧ x = e)
  ∨ (∃ post', post = (post' ++ [e])%list ∧ tr = (pre ++ x :: post')%list).
Proof.
  destruct post as [|y post' _] using rev_ind; intros Heq.
  - left. apply (app_inj_tail tr pre e x) in Heq as [-> ->]. auto.
  - right. exists post'.
    change (pre ++ x :: post' ++ [y])%list
      with (pre ++ (x :: post') ++ [y])%list in Heq.
    rewrite app_assoc in Heq.
    apply app_inj_tail in Heq as [-> ->]. auto.
Qed.

Lemma last_folded_fold tr g : last_folded (tr ++ [Folded g]) = Some g.
Proof. unfold last_folded. rewrite omap_app. cbn. apply last_snoc. Qed.

Lemma last_folded_sent tr trans :
  last_folded (tr ++ [Sent trans]) = last_folded tr.
Proof. unfold last_folded. rewrite omap_app. cbn. now rewrite app_nil_r. Qed.

Lemma ids_follow_folds_initial bls : ids_follow_folds (initial bls).
Proof.
  split; cbn.
  - intros g Hg. discriminate.
  - intros pre trans post g Heq. now destruct pre.
Qed.

Lemma ids_follow_folds_fold g st :
  ids_follow_folds st → ids_follow_folds (fold_gtid g st).
Proof.
  intros [Hcur Hids]. split; cbn [fold_gtid trace gtid].
  - intros g'. rewrite last_folded_fold. congruence.
  - intros pre trans post g' Heq Hlast.
    apply snoc_split in Heq as [(_ & _ & [=]) | (post' & _ & Htr)].
    eauto.
Qed.

Lemma ids_follow_folds_closed : closed_under_assignments ids_follow_folds.
Proof.
  split; try (intros ? st Hst; exact Hst); try (intros st Hst; exact Hst).
  intros ts st [Hcur Hids]. split; cbn [record trace gtid].
  - intros g. rewrite last_folded_sent. apply Hcur.
  - intros pre trans post g Heq Hlast.
    apply snoc_split in Heq as [(_ & -> & [= ->]) | (post' & _ & Htr)].
    + cbn. f_equal. now apply Hcur.
    + eauto.
Qed.

(** Nothing but the fold of a GTID assigns [pos]. *)
Lemma same_pos_closed (p : Position) :
  closed_under_assignments (λ st, pos st = p).
Proof. split; intros; assumption. Qed.

Lemma handle_pos bls st ev :
  pos (state_of (handle bls st ev)) = pos st
  ∨ ∃ g, event_gtid st ev = Some g
         ∧ pos (state_of (handle bls st ev)) = AppendGTID (pos st) g.
Proof.
  unfold handle, event_gtid.
  destruct (negb (IsValid ev)); [now left|].
  destruct (IsFormatDescription ev).
  { destruct (Format ev); now left. }
  destruct (IsZero (format st)).
  { destruct (IsRotate ev); now left. }
  destruct (StripChecksum ev (format st)) as [ev' [err|]]; [now left|].
  unfold absorb. cbn [fst].
  destruct (HasGTID ev' (format st)).
  - destruct (ev_GTID ev' (format st)) as [err|g]; [now left|].
    right. exists g. split; [reflexivity|].
    now apply (dispatch_closed _ bls (same_pos_closed _)).
  - left. now apply (dispatch_closed _ bls (same_pos_closed _)).
Qed.

(** C7: in every run of [parseEvents], a transaction handed to
    [sendTransaction] carries as its id the serialization of the GTID that
    was folded into [pos] last before it was sent (provided a GTID was
    folded at all); and a turn of the loop leaves [pos] unchanged or sets it
    to the prior position with the GTID of the event appended. *)
Theorem transaction_id_follows_position (bls : Streamer) :
  (∀ ctx events st err pre trans post g,
     parseEvents bls ctx events = (st, err) →
     trace st = (pre ++ Sent trans :: post)%list →
     last_folded pre = Some g →
     tx_TransactionId trans = EncodeGTID g)
  ∧ (∀ st ev,
       pos (state_of (handle bls st ev)) = pos st
       ∨ ∃ g, event_gtid st ev = Some g
              ∧ pos (state_of (handle bls st ev)) = AppendGTID (pos st) g).
Proof.
  split; [|apply handle_pos].
  intros ctx events st err pre trans post g Hrun.
  assert (ids_follow_folds st) as [_ Hids]; [|apply Hids].
  replace st with (fst (parseEvents bls ctx events)) by now rewrite Hrun.
  unfold parseEvents. apply loop_closed.
  - apply ids_follow_folds_closed.
  - apply ids_follow_folds_fold.
  - apply ids_follow_folds_initial.
Qed.

(** *** The gate before the format is known *)

(** C6: while the format is zero, a valid rotate event is skipped and the
    loop goes on in the same state; any other event that is not a
    FORMAT_DESCRIPTION event makes the loop return an error; a valid
    FORMAT_DESCRIPTION event that decodes sets the format and the loop goes
    on, the trace of effects unchanged. *)
Theorem pre_format_gate (bls : Streamer) ctx ev rest st :
  ctx ≠ Some 0 →
  IsZero (format st) = true →
  (IsValid ev = true → IsFormatDescription ev = false → IsRotate ev = true →
     loop bls ctx (ev :: rest) st = loop bls (Nat.pred <$> ctx) rest st)
  ∧ (IsFormatDescription ev = false → IsRotate ev = false →
     ∃ msg, loop bls ctx (ev :: rest) st = (st, Some (Errorf msg)))
  ∧ (∀ f, IsValid ev = true → IsFormatDescription ev = true →
       Format ev = inr f →
       loop bls ctx (ev :: rest) st
       = loop bls (Nat.pred <$> ctx) rest (set_format f st)
       ∧ format (set_format f st) = f
       ∧ trace (set_format f st) = trace st).
Proof.
  intros Hctx Hzero.
  assert (loop bls ctx (ev :: rest) st
          = match handle bls st ev with
            | Return st err => (st, Some err)
            | Continue st => loop bls (Nat.pred <$> ctx) rest st
            end) as ->.
  { destruct ctx as [[|n]|]; [congruence|reflexivity|reflexivity]. }
  unfold handle.
  split; [|split].
  - intros -> -> ->. now rewrite Hzero.
  - intros -> ->. rewrite Hzero. destruct (IsValid ev); cbn [negb]; eauto.
  - intros f -> -> ->. auto.
Qed.

(** *** The buffer and the autocommit flag *)

Lemma commit_continue bls ts st st' :
  commit bls ts st = Continue st' →
  statements st' = None ∧ autocommit st' = true.
Proof.
  unfold commit. destruct (sendTransaction bls _ _); [discriminate|].
  intros [= <-]. auto.
Qed.

Lemma begin_opens st : statements (begin st) = Some [] ∧ autocommit (begin st) = false.
Proof. unfold begin. destruct (statements st); auto. Qed.

(** What [commit] does to the trace, whether the consumer takes the
    transaction or not. *)
Lemma commit_trace bls ts st :
  trace (state_of (commit bls ts st))
  = (trace st ++ [Sent (mkTransaction (statements st) (Z.of_N ts)
                                      (EncodeGTID (gtid st)))])%list.
Proof. unfold commit. now destruct (sendTransaction bls _ _). Qed.

Lemma commit_statements bls ts st :
  statements (state_of (commit bls ts st)) = None
  ∨ statements (state_of (commit bls ts st)) = statements st.
Proof. unfold commit. destruct (sendTransaction bls _ _); auto. Qed.

Lemma dispatch_explicit_has_pending bls st ev st' :
  (autocommit st = false → statements st ≠ None) →
  dispatch bls st ev = Continue st' →
  autocommit st' = false → statements st' ≠ None.
Proof.
  intros Hst Hd. unfold dispatch, on_query in Hd.
  repeat case_match; simplify_eq/=;
    try (apply commit_continue in Hd as [_ ->]; discriminate);
    try (rewrite (proj1 (begin_opens _)); discriminate);
    try done.
Qed.

Lemma handle_explicit_has_pending bls st ev st' :
  (autocommit st = false → statements st ≠ None) →
  handle bls st ev = Continue st' →
  autocommit st' = false → statements st' ≠ None.
Proof.
  intros Hst Hh. unfold handle, absorb in Hh.
  repeat case_match; simplify_eq/=; try done;
    revert Hh; apply dispatch_explicit_has_pending; exact Hst.
Qed.

Lemma dispatch_keeps_equivalence bls st ev st' :
  (IsGTID ev || IsXID ev || negb (IsIntVar ev || IsRand ev)) = true →
  pending_iff_explicit st →
  dispatch bls st ev = Continue st' →
  pending_iff_explicit st'.
Proof.
  unfold pending_iff_explicit. intros Harm Hst Hd. unfold dispatch, on_query in Hd.
  repeat case_match; simplify_eq/=;
    try (apply commit_continue in Hd as [-> ->]; done);
    try (destruct (begin_opens st) as [-> ->]; done);
    try done.
Qed.


(** C2, as amended: between two events, [autocommit] false implies a
    non-absent pending buffer; and every arm of the dispatch other than the
    INTVAR and RAND arms keeps the equivalence "pending non-absent iff
    autocommit false".  (The INTVAR and RAND arms append to the buffer and
    leave [autocommit] alone.) *)
Theorem explicit_transaction_has_pending (bls : Streamer) :
  (∀ st, reachable bls st → autocommit st = false → statements st ≠ None)
  ∧ (∀ st ev st',
       (IsGTID ev || IsXID ev || negb (IsIntVar ev || IsRand ev)) = true →
       pending_iff_explicit st →
       dispatch bls st ev = Continue st' →
       pending_iff_explicit st').
Proof.
  split; [|apply dispatch_keeps_equivalence].
  induction 1 as [|st ev st' _ IH Hstep].
  - discriminate.
  - revert Hstep. now apply handle_explicit_has_pending.
Qed.

(** *** Rollback *)

(** C5: a query event that classifies as ROLLBACK hands [sendTransaction]
    one transaction with the nil statement list, the timestamp of the event
    and the serialization of the current GTID, and leaves no pending
    statements, whatever was buffered. *)
Theorem rollback_sends_empty_transaction (bls : Streamer) st ev q :
  IsGTID ev = false → IsXID ev = false → IsIntVar ev = false →
  IsRand ev = false → IsQuery ev = true →
  ev_Query ev (format st) = inr q →
  getStatementCategory (q_SQL q) = BL_ROLLBACK →
  let st' := state_of (dispatch bls st ev) in
  trace st'
  = (trace st ++ [Sent (mkTransaction None (Z.of_N (Timestamp ev))
                                      (EncodeGTID (gtid st)))])%list
  ∧ statements st' = None.
Proof.
  intros HG HX HI HR HQ Hq Hcat. unfold dispatch, on_query.
  rewrite HG, HX, HI, HR, HQ, Hq, Hcat. cbv zeta.
  split; [apply commit_trace|].
  now destruct (commit_statements bls (Timestamp ev) (set_statements None st)).
Qed.

(** *** Charsets *)

(** C8: in the default arm, for a statement that is not filtered, the
    synthesized SET TIMESTAMP statement and the statement itself get the
    same charset field: the charset of the event when it differs from the
    one the client declared, none when the two are equal, and the charset
    of the event whenever the client declared none. *)
Theorem charset_attachment (bls : Streamer) st ev q :
  ev_Query ev (format st) = inr q →
  getStatementCategory (q_SQL q) ∉ [BL_BEGIN; BL_ROLLBACK; BL_COMMIT] →
  (q_Database q = "" ∨ q_Database q = dbname bls) →
  ∃ charset,
    let buffer :=
      append (statements st)
        [ mkStatement BL_SET charset ("SET TIMESTAMP=" +:+ pretty (Timestamp ev));
          mkStatement (getStatementCategory (q_SQL q)) charset (q_SQL q) ] in
    on_query bls st ev
    = (if autocommit st
       then commit bls (Timestamp ev) (set_statements buffer st)
       else Continue (set_statements buffer st))
    ∧ (∀ C C', clientCharset bls = Some C → q_Charset q = Some C' → C' ≠ C →
         charset = Some C')
    ∧ (∀ C, clientCharset bls = Some C → q_Charset q = Some C → charset = None)
    ∧ (clientCharset bls = None → charset = q_Charset q).
Proof.
  intros Hq Hcat Hdb.
  exists (if attach_charset bls q then q_Charset q else None).
  split.
  - unfold on_query. rewrite Hq.
    assert (negb (String.eqb (q_Database q) "")
            && negb (String.eqb (q_Database q) (dbname bls)) = false) as Hkeep.
    { destruct Hdb as [->| ->]; [reflexivity|].
      rewrite String.eqb_refl. apply andb_false_r. }
    rewrite Hkeep.
    destruct (getStatementCategory (q_SQL q)) eqn:Hc; try reflexivity;
      exfalso; apply Hcat; rewrite !elem_of_cons; auto.
  - unfold attach_charset. repeat split.
    + intros C C' -> -> Hne. now rewrite bool_decide_eq_true_2.
    + intros C -> ->. rewrite bool_decide_eq_false_2; [reflexivity|]. now intros [].
    + now intros ->.
Qed.

(** *** INTVAR and RAND *)


(** *** The database filter *)

Section Sourced.
Variables (bls : Streamer) (seen : list BinlogEvent).

Lemma sourced_assign v st :
  sourced bls seen st →
  (∀ s, s ∈ elems v →
        s ∈ elems (statements st) ∨ ∃ ev f, ev ∈ seen ∧ derived_from bls f ev s) →
  sourced bls seen (set_statements v st).
Proof.
  intros Hst Hv s [Hs|Hsent].
  - destruct (Hv s Hs) as [Hold|Hnew]; [apply Hst; now left | exact Hnew].
  - apply Hst. now right.
Qed.

Lemma sourced_begin st : sourced bls seen st → sourced bls seen (begin st).
Proof.
  intros Hst s [Hs|Hsent].
  - rewrite (proj1 (begin_opens st)) in Hs. cbn in Hs. now apply elem_of_nil in Hs.
  - apply Hst. right. unfold begin in Hsent. now destruct (statements st).
Qed.

Lemma sourced_fold g st : sourced bls seen st → sourced bls seen (fold_gtid g st).
Proof.
  intros Hst s [Hs|(trans & Hin & Hs)]; apply Hst; [now left|].
  right. exists trans. split; [|exact Hs].
  cbn in Hin. apply elem_of_app in Hin as [Hin|Hin]; [exact Hin|].
  apply list_elem_of_singleton in Hin. discriminate.
Qed.

Lemma sourced_commit ts st :
  sourced bls seen st → sourced bls seen (state_of (commit bls ts st)).
Proof.
  intros Hst s [Hs|(trans & Hin & Hs)].
  - destruct (commit_statements bls ts st) as [Heq|Heq]; rewrite Heq in Hs.
    + now apply elem_of_nil in Hs.
    + apply Hst. now left.
  - rewrite commit_trace in Hin. apply elem_of_app in Hin as [Hin|Hin].
    + apply Hst. right. eauto.
    + apply list_elem_of_singleton in Hin. injection Hin as ->.
      apply Hst. now left.
Qed.

Lemma on_query_sourced ev ev' st :
  ev ∈ seen → fst (StripChecksum ev (format st)) = ev' →
  sourced bls seen st → sourced bls seen (state_of (on_query bls st ev')).
Proof.
  intros Hev Hstrip Hst. unfold on_query.
  destruct (ev_Query ev' (format st)) as [err|q] eqn:Hq; [exact Hst|].
  destruct (getStatementCategory (q_SQL q)) eqn:Hcat;
    try (now apply sourced_begin);
    try (apply sourced_commit; apply sourced_assign; [exact Hst|];
         intros s Hs; now apply elem_of_nil in Hs);
    try (now apply sourced_commit).
  all: destruct (negb (String.eqb (q_Database q) "")
                 && negb (String.eqb (q_Database q) (dbname bls))) eqn:Hdb;
         [exact Hst|].
  all: match goal with
       | |- context [if autocommit ?s then _ else _] =>
           assert (sourced bls seen s) as Hpushed;
             [|destruct (autocommit s); [now apply sourced_commit | exact Hpushed]]
       end.
  all: apply sourced_assign; [exact Hst|].
  all: intros s Hs; cbn in Hs; apply elem_of_app in Hs as [Hs|Hs]; [now left|].
  all: right; exists ev, (format st); split; [exact Hev|].
  all: right; right; exists q; rewrite Hstrip.
  all: split; [exact Hq|]; split.
  all: try (apply andb_false_iff in Hdb as [Hdb|Hdb];
            apply negb_false_iff, String.eqb_eq in Hdb; auto).
  all: unfold query_statements; now rewrite Hcat.
Qed.

Lemma dispatch_sourced ev ev' st :
  ev ∈ seen → fst (StripChecksum ev (format st)) = ev' →
  sourced bls seen st → sourced bls seen (state_of (dispatch bls st ev')).
Proof.
  intros Hev Hstrip Hst. unfold dispatch.
  destruct (IsGTID ev').
  { destruct (IsBeginGTID ev' (format st)); [now apply sourced_begin | exact Hst]. }
  destruct (IsXID ev'); [now apply sourced_commit|].
  destruct (IsIntVar ev').
  { destruct (IntVar ev' (format st)) as [?|[name value]] eqn:Hvar; [exact Hst|].
    apply sourced_assign; [exact Hst|].
    intros s Hs. cbn in Hs. apply elem_of_app in Hs as [Hs|Hs]; [now left|].
    apply list_elem_of_singleton in Hs as ->.
    right. exists ev, (format st). split; [exact Hev|].
    left. rewrite Hstrip. eauto. }
  destruct (IsRand ev').
  { destruct (Rand ev' (format st)) as [?|[seed1 seed2]] eqn:Hvar; [exact Hst|].
    apply sourced_assign; [exact Hst|].
    intros s Hs. cbn in Hs. apply elem_of_app in Hs as [Hs|Hs]; [now left|].
    apply list_elem_of_singleton in Hs as ->.
    right. exists ev, (format st). split; [exact Hev|].
    right. left. rewrite Hstrip. eauto. }
  destruct (IsQuery ev'); [now apply (on_query_sourced ev) | exact Hst].
Qed.

End Sourced.

Lemma sourced_more bls seen ev st :
  sourced bls seen st → sourced bls (seen ++ [ev]) st.
Proof.
  intros Hst s Hs. destruct (Hst s Hs) as (ev0 & f & Hin & Hd).
  exists ev0, f. split; [|exact Hd]. apply elem_of_app. now left.
Qed.

Lemma handle_sourced bls seen ev st :
  sourced bls seen st → sourced bls (seen ++ [ev]) (state_of (handle bls st ev)).
Proof.
  intros Hst. apply (sourced_more _ _ ev) in Hst.
  assert (ev ∈ seen ++ [ev]) as Hev by (apply elem_of_app; right; constructor).
  unfold handle.
  destruct (negb (IsValid ev)); [exact Hst|].
  destruct (IsFormatDescription ev).
  { destruct (Format ev); exact Hst. }
  destruct (IsZero (format st)).
  { destruct (IsRotate ev); exact Hst. }
  destruct (StripChecksum ev (format st)) as [ev' [err|]] eqn:Hstrip; [exact Hst|].
  unfold absorb.
  destruct (HasGTID ev' (format st)).
  - destruct (ev_GTID ev' (format st)) as [err|g]; [exact Hst|].
    apply (dispatch_sourced _ _ ev); [exact Hev | cbn; now rewrite Hstrip |].
    now apply sourced_fold.
  - apply (dispatch_sourced _ _ ev); [exact Hev | now rewrite Hstrip | exact Hst].
Qed.

Lemma loop_sourced bls ctx events :
  ∀ seen st,
    sourced bls seen st →
    sourced bls (seen ++ events) (fst (loop bls ctx events st)).
Proof.
  revert ctx. induction events as [|ev rest IH]; intros ctx seen st Hst.
  - rewrite app_nil_r. destruct ctx as [[|n]|]; exact Hst.
  - assert (sourced bls (seen ++ ev :: rest) st) as Hstop.
    { intros s Hs. destruct (Hst s Hs) as (ev0 & f & Hin & Hd).
      exists ev0, f. split; [|exact Hd]. apply elem_of_app. now left. }
    pose proof (handle_sourced bls seen ev st Hst) as Hnext.
    assert (∀ st', sourced bls (seen ++ [ev]) st' →
                   sourced bls (seen ++ ev :: rest) st') as Hwiden.
    { intros st' Hst' s Hs. destruct (Hst' s Hs) as (ev0 & f & Hin & Hd).
      exists ev0, f. split; [|exact Hd].
      rewrite (cons_middle ev), app_assoc. apply elem_of_app. now left. }
    destruct ctx as [[|n]|]; cbn [loop]; try exact Hstop;
      destruct (handle bls st ev) as [st1|st1 err1]; cbn [state_of fst] in *;
      try (apply Hwiden; exact Hnext);
      rewrite (cons_middle ev), app_assoc; now apply IH.
Qed.

(** C9: a query event on another database (its database field non-empty
    and different from [dbname]) adds no statement, neither to the pending
    buffer nor to a transaction it makes the loop send; and in every run of
    [parseEvents] each statement of each transaction sent was made from an
    INTVAR event, a RAND event, or a query event whose database field is
    empty or equal to [dbname]. *)
Theorem cross_db_statements_never_sent (bls : Streamer) :
  (∀ st ev q,
     ev_Query ev (format st) = inr q →
     q_Database q ≠ "" → q_Database q ≠ dbname bls →
     let st' := state_of (on_query bls st ev) in
     (∀ s, s ∈ elems (statements st') → s ∈ elems (statements st))
     ∧ (∀ trans s, Sent trans ∈ trace st' → s ∈ elems (tx_Statements trans) →
          Sent trans ∈ trace st ∨ s ∈ elems (statements st)))
  ∧ (∀ ctx events st err trans s,
       parseEvents bls ctx events = (st, err) →
       trans ∈ sent st →
       s ∈ elems (tx_Statements trans) →
       ∃ ev f, ev ∈ events ∧ derived_from bls f ev s).
Proof.
  split.
  - intros st ev q Hq Hne Hdb. unfold on_query. rewrite Hq.
    assert (negb (String.eqb (q_Database q) "")
            && negb (String.eqb (q_Database q) (dbname bls)) = true) as ->.
    { apply andb_true_iff; split; apply negb_true_iff, String.eqb_neq; assumption. }
    assert (∀ ts st0,
              elems (statements st0) ⊆ elems (statements st) →
              trace st0 = trace st →
              let st' := state_of (commit bls ts st0) in
              (∀ s, s ∈ elems (statements st') → s ∈ elems (statements st))
              ∧ (∀ trans s, Sent trans ∈ trace st' →
                   s ∈ elems (tx_Statements trans) →
                   Sent trans ∈ trace st ∨ s ∈ elems (statements st))) as Hcommit.
    { intros ts st0 Hsub Htr. split.
      - intros s Hs. apply Hsub.
        destruct (commit_statements bls ts st0) as [Heq|Heq]; rewrite Heq in Hs;
          [now apply elem_of_nil in Hs | exact Hs].
      - intros trans s Hin Hs. rewrite commit_trace, Htr in Hin.
        apply elem_of_app in Hin as [Hin|Hin]; [now left|].
        apply list_elem_of_singleton in Hin. injection Hin as ->.
        right. now apply Hsub. }
    destruct (getStatementCategory (q_SQL q)); cbn [state_of];
      try (split; [intros s Hs; exact Hs | intros trans s Hin _; now left]);
      try (apply Hcommit; [|reflexivity]; cbn; set_solver).
    split.
    + intros s Hs. rewrite (proj1 (begin_opens st)) in Hs. now apply elem_of_nil in Hs.
    + intros trans s Hin _. left. unfold begin in Hin. now destruct (statements st).
  - intros ctx events st err trans s Hrun Htrans Hs.
    assert (sourced bls events st) as Hsrc.
    { replace st with (fst (parseEvents bls ctx events)) by now rewrite Hrun.
      apply (loop_sourced bls ctx events []).
      intros s0 [Hs0|(t0 & Hin & _)].
      - now apply elem_of_nil in Hs0.
      - now apply elem_of_nil in Hin. }
    apply Hsrc. right. exists trans. split; [|exact Hs].
    unfold sent in Htrans. apply list_elem_of_omap in Htrans as (e & He & Hsome).
    destruct e; [discriminate|]. cbn in Hsome. now injection Hsome as ->.
Qed.

End Loop.

(** ** The sentinels and [Stream] *)

Section Sentinels.
Context `{Unicode} `{Replication}.

Lemma loop_server_eof (bls : Streamer) ctx st :
  ctx ≠ Some 0 → loop bls ctx [] st = (st, Some ErrServerEOF).
Proof. destruct ctx as [[|n]|]; [congruence|reflexivity|reflexivity]. Qed.

Lemma commit_client_eof (bls : Streamer) ts st :
  sendTransaction bls (sent st)
    (mkTransaction (statements st) (Z.of_N ts) (EncodeGTID (gtid st)))
  = Some io_EOF →
  ∃ st', commit bls ts st = Return st' ErrClientEOF.
Proof. intros Heof. unfold commit. rewrite Heof. eauto. Qed.

Lemma Stream_wraps_every_error (bls : Streamer) ctx :
  snd (Stream bls ctx) = None
  ∨ ∃ msg, snd (Stream bls ctx) = Some (Errorf ("stream error @ " +:+ msg)).
Proof.
  unfold Stream. destruct (Stream_run bls ctx) as [[stopPos out] [err|]]; cbn.
  - right. eauto.
  - now left.
Qed.

Lemma Stream_never_returns_sentinel (bls : Streamer) ctx :
  snd (Stream bls ctx) ≠ Some ErrClientEOF
  ∧ snd (Stream bls ctx) ≠ Some ErrServerEOF.
Proof.
  destruct (Stream_wraps_every_error bls ctx) as [->|[msg ->]]; split; discriminate.
Qed.

(** A run that ends because the service shuts down ends between two
    events. *)
Lemma shutdown_state_reachable (bls : Streamer) ctx events :
  ∀ st st', reachable bls st → loop bls ctx events st = (st', None) →
            reachable bls st'.
Proof.
  revert ctx. induction events as [|ev rest IH]; intros ctx st st' Hst Hrun.
  - destruct ctx as [[|n]|]; cbn in Hrun; congruence.
  - destruct ctx as [[|n]|]; cbn [loop] in Hrun; [congruence| |];
      destruct (handle bls st ev) as [st1|st1 err1] eqn:Hstep; try discriminate;
      (eapply IH; [|exact Hrun]); eapply reachable_handle; eassumption.
Qed.

End Sentinels.

(** ** Scripted runs *)

Module ScriptedRuns.
Import Scenarios.
#[local] Existing Instance scripted_unicode.

Lemma insert_is_DML : getStatementCategory "insert into t values(1)" = BL_DML.
Proof. vm_compute. reflexivity. Qed.

Section AnyGTID.
Context {G : Type} (nil_g : G) (encode : G → string).

(** C3, as amended: for the events FORMAT_DESC; GTID(g1); QUERY(db=targetdb,
    "insert into t values(1)", ts=100); XID(ts=100) and a consumer that
    takes every transaction, two transactions are sent: first the one with
    the statements (SET, "SET TIMESTAMP=100") and (DML, "insert into t
    values(1)"), timestamp 100 and id serialize(g1); then, for the XID
    event, one without statements, with the same timestamp and id.  This
    holds for every type of GTIDs and every serialization. *)
Theorem autocommit_insert_then_xid (targetdb : string) (g1 : G)
    (client : option Charset) (start : list G) :
  let bls := streamer nil_g encode targetdb client start Fake.accept_all [] in
  let run := parseEvents (H0 := scripted_replication nil_g encode) bls None
               (autocommit_insert targetdb g1) in
  sent (fst run)
  = [ insert_transaction encode g1; empty_transaction encode 100 g1 ]
  ∧ snd run = Some ErrServerEOF
  ∧ pos (fst run) = start ++ [g1].
Proof.
  cbv zeta.
  unfold parseEvents, autocommit_insert.
  cbn [loop fmap option_fmap option_map].
  set (bls := streamer nil_g encode targetdb client start Fake.accept_all []).
  unfold handle, absorb, dispatch, on_query.
  cbn -[getStatementCategory String.eqb attach_charset pretty commit].
  rewrite insert_is_DML.
  rewrite String.eqb_refl, andb_false_r.
  replace (if attach_charset bls _ then None else None) with (@None Charset)
    by now destruct (attach_charset bls _).
  cbn. auto.
Qed.
End AnyGTID.

(** Runs over GTIDs that are their own serialization. *)

Section Plain.
#[local] Existing Instance plain_replication.

(** C3, as stated, fails: with the GTID event not flagged as a begin, the
    insert is committed at once and the XID event commits again, so two
    transactions are sent, not one. *)
Lemma autocommit_insert_sends_two :
  let bls := plain "targetdb" None Fake.accept_all [] in
  let out := sent (fst (parseEvents bls None (autocommit_insert "targetdb" "g1"))) in
  length out = 2 ∧ out ≠ [insert_transaction (λ g, g) "g1"].
Proof. vm_compute. split; [reflexivity | discriminate]. Qed.

(** With the begin flag on the GTID event the same script sends the one
    transaction, at the XID event. *)
Lemma explicit_insert_sends_one :
  let bls := plain "targetdb" None Fake.accept_all [] in
  sent (fst (parseEvents bls None (explicit_insert "targetdb" "g1")))
  = [insert_transaction (λ g, g) "g1"].
Proof. vm_compute. reflexivity. Qed.

(** C1: [parseEvents] returns the sentinels, but what [Stream] returns for
    the same sessions is a fresh error whose text starts with the
    position: when the server closes the channel, and when the consumer
    reports end-of-stream. *)
Theorem Stream_wraps_sentinels :
  let events := autocommit_insert "db" "g1" in
  let closed := plain "db" None Fake.accept_all events in
  let refused := plain "db" None Fake.refuse_all events in
  snd (parseEvents closed None events) = Some ErrServerEOF
  ∧ snd (Stream closed None)
    = Some (Errorf "stream error @ g1: binlog stream connection was closed by mysqld")
  ∧ snd (parseEvents refused None events) = Some ErrClientEOF
  ∧ snd (Stream refused None)
    = Some (Errorf "stream error @ g1: binlog stream consumer ended the reply stream").
Proof. vm_compute. repeat split. Qed.

(** C2, as stated, fails: after an INTVAR event outside any explicit
    transaction the buffer holds a statement while [autocommit] is true. *)
Lemma intvar_breaks_pending_equivalence :
  ¬ (∀ st, reachable (plain "db" None Fake.accept_all []) st →
           pending_iff_explicit st).
Proof.
  intros Hall.
  set (bls := plain "db" None Fake.accept_all []) in *.
  destruct (loop bls (Some 2) lone_intvar (initial bls)) as [st err] eqn:Hrun.
  assert (reachable bls st) as Hst.
  { apply (shutdown_state_reachable bls (Some 2) lone_intvar (initial bls));
      [constructor|].
    rewrite Hrun. vm_compute in Hrun. congruence. }
  apply Hall in Hst. vm_compute in Hrun. injection Hrun as <- _.
  destruct Hst as [Hst _]. specialize (Hst ltac:(discriminate)). discriminate Hst.
Qed.


(** *** The theorems above at scripted inputs *)

Lemma explicit_transaction_has_pending_witness :
  let bls := plain "db" None Fake.accept_all [] in
  let st := fst (loop bls (Some 3) (explicit_insert "db" "g1") (initial bls)) in
  reachable bls st ∧ autocommit st = false ∧ statements st ≠ None.
Proof.
  cbv zeta.
  set (bls := plain "db" None Fake.accept_all []).
  assert (reachable bls
            (fst (loop bls (Some 3) (explicit_insert "db" "g1") (initial bls))))
    as Hst.
  { apply (shutdown_state_reachable bls (Some 3) (explicit_insert "db" "g1")
             (initial bls)); [constructor|].
    rewrite (surjective_pairing (loop _ _ _ _)) at 1. f_equal. }
  split; [exact Hst|]. split; [vm_compute; reflexivity|].
  apply (proj1 (explicit_transaction_has_pending bls) _ Hst).
  vm_compute. reflexivity.
Defined.

Lemma rollback_sends_empty_transaction_witness :
  let bls := plain "db" None Fake.accept_all [] in
  let st := fst (loop bls (Some 3) (rolled_back "db" "g1") (initial bls)) in
  let ev := Fake.queryEvent (mkQuery "db" None "rollback") 6 in
  getStatementCategory "rollback" = BL_ROLLBACK
  ∧ elems (statements st) ≠ []
  ∧ EncodeGTID (gtid st) = "g1"
  ∧ trace (state_of (dispatch bls st ev))
    = trace st ++ [Sent (mkTransaction None (Z.of_N (Timestamp ev))
                                        (EncodeGTID (gtid st)))]
  ∧ statements (state_of (dispatch bls st ev)) = None.
Proof.
  cbv zeta. split; [vm_compute; reflexivity|]. split; [vm_compute; discriminate|].
  split; [vm_compute; reflexivity|].
  apply (rollback_sends_empty_transaction
           (plain "db" None Fake.accept_all []) _
           (Fake.queryEvent (mkQuery "db" None "rollback") 6)
           (mkQuery "db" None "rollback"));
    vm_compute; reflexivity.
Defined.

Lemma pre_format_gate_witness :
  let bls := plain "db" None Fake.accept_all [] in
  loop bls None [Fake.rotateEvent] (initial bls) = loop bls None [] (initial bls)
  ∧ ∃ msg, loop bls None [Fake.xidEvent 1] (initial bls)
           = (initial bls, Some (Errorf msg)).
Proof.
  cbv zeta. split.
  - apply (pre_format_gate (plain "db" None Fake.accept_all []) None
             Fake.rotateEvent [] _); [discriminate | reflexivity..].
  - apply (pre_format_gate (plain "db" None Fake.accept_all []) None
             (Fake.xidEvent 1) [] _); [discriminate | reflexivity..].
Defined.

Lemma transaction_id_follows_position_witness :
  let bls := plain "db" None Fake.accept_all [] in
  let run := parseEvents bls None (autocommit_insert "db" "g1") in
  trace (fst run)
  = [Folded "g1"] ++ Sent (insert_transaction (λ g, g) "g1")
                     :: [Sent (empty_transaction (λ g, g) 100 "g1")]
  ∧ last_folded [Folded "g1"] = Some "g1"
  ∧ tx_TransactionId (insert_transaction (λ g, g) "g1") = EncodeGTID "g1".
Proof.
  cbv zeta.
  assert (trace (fst (parseEvents (plain "db" None Fake.accept_all []) None
                        (autocommit_insert "db" "g1")))
          = [Folded "g1"] ++ Sent (insert_transaction (λ g, g) "g1")
                             :: [Sent (empty_transaction (λ g, g) 100 "g1")])
    as Htrace by (vm_compute; reflexivity).
  split; [exact Htrace|]. split; [reflexivity|].
  apply (proj1 (transaction_id_follows_position
                  (plain "db" None Fake.accept_all []))
           None (autocommit_insert "db" "g1") _ _ _ _ _ "g1"
           (surjective_pairing _) Htrace).
  reflexivity.
Defined.

Lemma charset_attachment_witness :
  let bls := plain "db" (Some utf8) Fake.accept_all [] in
  let st := fst (loop bls (Some 2) (explicit_insert "db" "g1") (initial bls)) in
  let q := mkQuery "db" (Some latin1) "update t set a=1" in
  let ev := Fake.queryEvent q 9 in
  latin1 ≠ utf8
  ∧ ∃ charset,
      charset = Some latin1
      ∧ on_query bls st ev
        = Continue
            (set_statements
               (append (statements st)
                  [ mkStatement BL_SET charset "SET TIMESTAMP=9";
                    mkStatement BL_DML charset "update t set a=1" ])
               st).
Proof.
  cbv zeta. split; [discriminate|].
  destruct (charset_attachment
              (plain "db" (Some utf8) Fake.accept_all [])
              (fst (loop (plain "db" (Some utf8) Fake.accept_all []) (Some 2)
                      (explicit_insert "db" "g1")
                      (initial (plain "db" (Some utf8) Fake.accept_all []))))
              (Fake.queryEvent (mkQuery "db" (Some latin1) "update t set a=1") 9)
              (mkQuery "db" (Some latin1) "update t set a=1"))
    as (charset & Hrun & Hdiffer & _ & _).
  - reflexivity.
  - replace (getStatementCategory _) with BL_DML by (vm_compute; reflexivity).
    rewrite !elem_of_cons, elem_of_nil. intuition discriminate.
  - right. reflexivity.
  - exists charset. split.
    + apply (Hdiffer utf8 latin1); [reflexivity | reflexivity | discriminate].
    + rewrite Hrun. vm_compute. reflexivity.
Defined.

Lemma cross_db_statements_never_sent_witness :
  let bls := plain "db" None Fake.accept_all [] in
  let q := mkQuery "other" None "insert into t values(3)" in
  let ev := Fake.queryEvent q 7 in
  let st := fst (loop bls (Some 2) (cross_db "g1") (initial bls)) in
  let st' := state_of (on_query bls st ev) in
  let s := mkStatement BL_DML None "insert into t values(1)" in
  (ev_Query ev (format st) = inr q
   ∧ q_Database q ≠ "" ∧ q_Database q ≠ dbname bls)
  ∧ ((∀ s, s ∈ elems (statements st') → s ∈ elems (statements st))
     ∧ (∀ trans s, Sent trans ∈ trace st' → s ∈ elems (tx_Statements trans) →
          Sent trans ∈ trace st ∨ s ∈ elems (statements st)))
  ∧ sent (fst (parseEvents bls None (mixed_db "db" "g1")))
    = [insert_transaction (λ g, g) "g1"]
  ∧ ∃ ev0 f, ev0 ∈ mixed_db "db" "g1" ∧ derived_from bls f ev0 s.
Proof.
  cbv zeta.
  pose proof (cross_db_statements_never_sent
                (plain "db" None Fake.accept_all [])) as [Hlocal Hrun].
  assert (sent (fst (parseEvents (plain "db" None Fake.accept_all []) None
                       (mixed_db "db" "g1")))
          = [insert_transaction (λ g, g) "g1"]) as Hsent
    by (vm_compute; reflexivity).
  split; [|split; [|split]].
  - split; [reflexivity|]. split; discriminate.
  - apply (Hlocal _ (Fake.queryEvent (mkQuery "other" None "insert into t values(3)") 7)
             (mkQuery "other" None "insert into t values(3)"));
      [reflexivity | discriminate | discriminate].
  - exact Hsent.
  - apply (Hrun None (mixed_db "db" "g1") _ _
             (insert_transaction (λ g, g) "g1") _ (surjective_pairing _)).
    + rewrite Hsent. constructor.
    + cbn. rewrite !elem_of_cons. auto.
Defined.

End Plain.
End ScriptedRuns.

(** * Further properties *)

(** ** The classifier, continued *)

Section MoreClassifier.
Context `{Unicode}.
Import SpecClassifier.

Ltac every_byte a :=
  destruct a as [[] [] [] [] [] [] [] []]; reflexivity.

Lemma lower_byte_space a : is_space (lower_byte a) = is_space a.
Proof. every_byte a. Qed.

Lemma lower_byte_ascii a :
  (nat_of_ascii (lower_byte a) <? 128)%nat = (nat_of_ascii a <? 128)%nat.
Proof. every_byte a. Qed.

Lemma token_until_lower s :
  token_until is_space (map_bytes lower_byte s)
  = map_bytes lower_byte (token_until is_space s).
Proof.
  induction s as [|a s IH]; [reflexivity|].
  cbn [map_bytes token_until]. rewrite lower_byte_space.
  destruct (is_space a); [reflexivity|]. cbn [map_bytes]. now rewrite IH.
Qed.

Lemma isASCII_token s : isASCII s = true → isASCII (token_until is_space s) = true.
Proof.
  induction s as [|a s IH]; [reflexivity|].
  cbn [isASCII token_until]. intros [Ha Hs]%andb_true_iff.
  destruct (is_space a); [reflexivity|]. cbn [isASCII]. rewrite Ha. now apply IH.
Qed.

(** On ASCII text the classifier looks up the lowered bytes before the
    first space. *)
Lemma getStatementCategory_ascii sql :
  isASCII sql = true →
  getStatementCategory sql
  = default BL_UNRECOGNIZED
      (statementPrefixes !! token_until is_space (map_bytes lower_byte sql)).
Proof.
  intros Hascii. unfold getStatementCategory. cbv zeta.
  rewrite slice_at_first_space. unfold ToLower.
  now rewrite (isASCII_token _ Hascii), token_until_lower.
Qed.

(** X1: for two ASCII statements that [strings.ToLower] makes equal, the
    classifier returns the same category: it does not look at the case of
    the letters. *)
Theorem getStatementCategory_ignores_case (s1 s2 : string) :
  isASCII s1 = true → isASCII s2 = true →
  ToLower s1 = ToLower s2 →
  getStatementCategory s1 = getStatementCategory s2.
Proof.
  intros H1 H2. unfold ToLower. rewrite H1, H2. intros Hlow.
  rewrite !getStatementCategory_ascii by assumption. now rewrite Hlow.
Qed.

Lemma token_until_append tok rest :
  token_until is_space (tok +:+ String " " rest) = token_until is_space tok.
Proof.
  induction tok as [|a tok IH]; [reflexivity|].
  change (String a tok +:+ String " " rest)
    with (String a (tok +:+ String " " rest)).
  cbn [token_until]. now rewrite IH.
Qed.

(** X2: a space and whatever follows it, appended to a statement, do not
    change its category: the classifier never looks behind the first
    space. *)
Theorem getStatementCategory_ignores_the_rest (sql rest : string) :
  getStatementCategory (sql +:+ String " " rest) = getStatementCategory sql.
Proof.
  unfold getStatementCategory. cbv zeta.
  now rewrite !slice_at_first_space, token_until_append.
Qed.

(** X3: a statement that starts with a space is never recognized, whatever
    follows the space: the token before the first space is empty. *)
Theorem getStatementCategory_leading_space (rest : string) :
  getStatementCategory (String " " rest) = BL_UNRECOGNIZED.
Proof.
  unfold getStatementCategory. cbv zeta. rewrite slice_at_first_space.
  reflexivity.
Qed.

End MoreClassifier.

(** ** The loop, continued *)

Section Turns.
Context `{Unicode} `{Replication}.

(** *** What one turn of the loop does *)

Lemma commit_outcome bls st0 ts st :
  trace st = trace st0 → gtid st = gtid st0 → pos st = pos st0 →
  outcome bls st0 ts (commit bls ts st).
Proof.
  intros Htr Hg Hp. unfold commit.
  assert (sent st = sent st0) as Hsent by (unfold sent; now rewrite Htr).
  rewrite Hsent, Hg.
  destruct (sendTransaction bls (sent st0) _) as [err|] eqn:Hsend.
  - apply (outcome_refused bls st0 ts (statements st) _ err);
      cbn; congruence.
  - apply (outcome_sent bls st0 ts (statements st)); cbn; congruence.
Qed.

Lemma begin_outcome bls st ts : outcome bls st ts (Continue (begin st)).
Proof.
  apply outcome_quiet; unfold begin; now destruct (statements st).
Qed.

Lemma on_query_outcome bls st ev :
  outcome bls st (Timestamp ev) (on_query bls st ev).
Proof.
  unfold on_query.
  destruct (ev_Query ev (format st)) as [err|q]; [now apply outcome_failed|].
  destruct (getStatementCategory (q_SQL q));
    try apply begin_outcome; try (now apply commit_outcome);
    (destruct (negb _ && negb _); [now apply outcome_quiet|];
     match goal with
     | |- context [if autocommit ?s then _ else _] => destruct (autocommit s)
     end; [now apply commit_outcome | now apply outcome_quiet]).
Qed.

Lemma dispatch_outcome bls st ev :
  outcome bls st (Timestamp ev) (dispatch bls st ev).
Proof.
  unfold dispatch.
  destruct (IsGTID ev).
  { destruct (IsBeginGTID ev (format st));
      [apply begin_outcome | now apply outcome_quiet]. }
  destruct (IsXID ev); [now apply commit_outcome|].
  destruct (IsIntVar ev).
  { destruct (IntVar ev (format st)) as [?|[name value]];
      [now apply outcome_failed | now apply outcome_quiet]. }
  destruct (IsRand ev).
  { destruct (Rand ev (format st)) as [?|[seed1 seed2]];
      [now apply outcome_failed | now apply outcome_quiet]. }
  destruct (IsQuery ev); [apply on_query_outcome | now apply outcome_quiet].
Qed.

(** X7: one turn of the loop folds at most one GTID, the one of the
    event, and after that hands at most one transaction to
    [sendTransaction]; that transaction has the timestamp of the event
    (checksum stripped) and the serialization of the GTID current after the
    fold.  After a send the turn goes on when the consumer returned nil,
    and returns [ErrClientEOF] for [io.EOF] and a "send reply error" for
    any other answer; without a send it goes on or returns a fresh
    error. *)
Theorem one_turn_one_transaction (bls : Streamer) st ev :
  ∃ st1,
    (st1 = st ∨ ∃ g, event_gtid st ev = Some g ∧ st1 = fold_gtid g st)
    ∧ outcome bls st1 (Timestamp (fst (StripChecksum ev (format st))))
        (handle bls st ev).
Proof.
  unfold handle, event_gtid.
  destruct (negb (IsValid ev));
    [exists st; split; [now left | now apply outcome_failed]|].
  destruct (IsFormatDescription ev).
  { exists st. split; [now left|].
    destruct (Format ev); [now apply outcome_failed | now apply outcome_quiet]. }
  destruct (IsZero (format st)).
  { exists st. split; [now left|].
    destruct (IsRotate ev); [now apply outcome_quiet | now apply outcome_failed]. }
  destruct (StripChecksum ev (format st)) as [ev' [err|]];
    [exists st; split; [now left | now apply outcome_failed]|].
  unfold absorb. cbn [fst].
  destruct (HasGTID ev' (format st)).
  - destruct (ev_GTID ev' (format st)) as [err|g].
    + exists st. split; [now left | now apply outcome_failed].
    + exists (fold_gtid g st). split; [right; eauto | apply dispatch_outcome].
  - exists st. split; [now left | apply dispatch_outcome].
Qed.

(** A turn of the loop comes to one of the outcomes, from the state before
    it or from that state with a GTID folded in. *)
Lemma handle_outcome bls st ev :
  ∃ st1 ts,
    (st1 = st ∨ ∃ g, st1 = fold_gtid g st)
    ∧ outcome bls st1 ts (handle bls st ev).
Proof.
  unfold handle.
  destruct (negb (IsValid ev));
    [exists st, 0%N; split; [now left | now apply outcome_failed]|].
  destruct (IsFormatDescription ev).
  { exists st, 0%N. split; [now left|].
    destruct (Format ev); [now apply outcome_failed | now apply outcome_quiet]. }
  destruct (IsZero (format st)).
  { exists st, 0%N. split; [now left|].
    destruct (IsRotate ev); [now apply outcome_quiet | now apply outcome_failed]. }
  destruct (StripChecksum ev (format st)) as [ev' [err|]];
    [exists st, 0%N; split; [now left | now apply outcome_failed]|].
  unfold absorb.
  destruct (HasGTID ev' (format st)).
  - destruct (ev_GTID ev' (format st)) as [err|g].
    + exists st, 0%N. split; [now left | now apply outcome_failed].
    + exists (fold_gtid g st), (Timestamp ev').
      split; [right; eauto | apply dispatch_outcome].
  - exists st, (Timestamp ev'). split; [now left | apply dispatch_outcome].
Qed.

Lemma send_error_not_server_eof err : send_error err ≠ ErrServerEOF.
Proof. now destruct err. Qed.

Lemma send_error_client_eof err : send_error err = ErrClientEOF → err = io_EOF.
Proof. now destruct err. Qed.

Lemma handle_never_server_eof bls st ev st' :
  handle bls st ev ≠ Return st' ErrServerEOF.
Proof.
  intros Heq. destruct (handle_outcome bls st ev) as (st1 & ts & _ & Hout).
  rewrite Heq in Hout. inversion Hout as [| | |? ? err ? ? ? ? [Hst Herr]].
  now apply send_error_not_server_eof in Herr.
Qed.

Lemma sent_fold g st : sent (fold_gtid g st) = sent st.
Proof. unfold sent. cbn. rewrite omap_app. cbn. apply app_nil_r. Qed.

(** *** How a run ends *)

Lemma loop_cons bls ctx ev rest st :
  ctx ≠ Some 0 →
  loop bls ctx (ev :: rest) st
  = match handle bls st ev with
    | Return st err => (st, Some err)
    | Continue st => loop bls (Nat.pred <$> ctx) rest st
    end.
Proof. destruct ctx as [[|n]|]; [congruence|reflexivity|reflexivity]. Qed.

(** X8: when [parseEvents] returns [ErrClientEOF], the last thing it did
    was to hand a transaction to [sendTransaction], and that call returned
    [io.EOF]. *)
Theorem client_eof_means_refused (bls : Streamer) ctx events st :
  parseEvents bls ctx events = (st, Some ErrClientEOF) →
  ∃ tr trans,
    trace st = tr ++ [Sent trans]
    ∧ sendTransaction bls (omap sent_of tr) trans = Some io_EOF.
Proof.
  unfold parseEvents. generalize (initial bls) as st0. revert ctx.
  induction events as [|ev rest IH]; intros ctx st0 Hrun.
  - destruct ctx as [[|n]|]; discriminate.
  - destruct ctx as [[|n]|]; cbn [loop] in Hrun; [discriminate| |];
      (destruct (handle bls st0 ev) as [st1|st1 err] eqn:Hstep;
       [now apply IH in Hrun|]);
      injection Hrun as -> ->;
      destruct (handle_outcome bls st0 ev) as (st2 & ts & Hfold & Hout);
      rewrite Hstep in Hout;
      inversion Hout as [| | |stmts ? err Htr _ _ Hsend [Hst Herr]];
      apply send_error_client_eof in Herr as ->;
      eexists _, _; (split; [exact Htr|]);
      (destruct Hfold as [->|[g ->]]; [exact Hsend|]);
      rewrite sent_fold in Hsend; cbn [fold_gtid trace];
      rewrite omap_app; cbn; rewrite app_nil_r; exact Hsend.
Qed.


Lemma accepted_nil bls : accepted bls [].
Proof. intros pre trans post Heq. now destruct pre. Qed.

Lemma accepted_fold bls tr g : accepted bls tr → accepted bls (tr ++ [Folded g]).
Proof.
  intros Hacc pre trans post Heq.
  apply snoc_split in Heq as [(_ & _ & [=]) | (post' & _ & ->)].
  now apply (Hacc pre trans post').
Qed.

Lemma accepted_sent bls tr trans :
  accepted bls tr →
  sendTransaction bls (omap sent_of tr) trans = None →
  accepted bls (tr ++ [Sent trans]).
Proof.
  intros Hacc Hsend pre trans' post Heq.
  apply snoc_split in Heq as [(_ & -> & [= ->]) | (post' & _ & ->)].
  - exact Hsend.
  - now apply (Hacc pre trans' post').
Qed.

Lemma accepted_refused bls tr trans :
  accepted bls tr → accepted_but_last bls (tr ++ [Sent trans]).
Proof.
  intros Hacc pre trans' post Heq Hpost.
  apply snoc_split in Heq as [(-> & _ & _) | (post' & _ & ->)]; [done|].
  now apply (Hacc pre trans' post').
Qed.

Lemma accepted_weaken bls tr : accepted bls tr → accepted_but_last bls tr.
Proof. intros Hacc pre trans post Heq _. now apply (Hacc pre trans post). Qed.

Lemma handle_accepted bls st ev :
  accepted bls (trace st) →
  match handle bls st ev with
  | Continue st' => accepted bls (trace st')
  | Return st' _ => accepted_but_last bls (trace st')
  end.
Proof.
  intros Hacc.
  destruct (handle_outcome bls st ev) as (st1 & ts & Hfold & Hout).
  assert (accepted bls (trace st1)) as Hacc1.
  { destruct Hfold as [->|[g ->]]; [exact Hacc | now apply accepted_fold]. }
  inversion Hout as [st' Htr|st' msg Htr|stmts st' Htr _ _ Hsend
                     |stmts st' err Htr]; rewrite Htr.
  - exact Hacc1.
  - now apply accepted_weaken.
  - now apply accepted_sent.
  - now apply accepted_refused.
Qed.

Lemma loop_accepted bls ctx events :
  ∀ st, accepted bls (trace st) →
        accepted_but_last bls (trace (fst (loop bls ctx events st)))
        ∧ (snd (loop bls ctx events st) = None
           ∨ snd (loop bls ctx events st) = Some ErrServerEOF →
           accepted bls (trace (fst (loop bls ctx events st)))).
Proof.
  revert ctx. induction events as [|ev rest IH]; intros ctx st Hacc.
  - destruct ctx as [[|n]|]; cbn; auto using accepted_weaken.
  - destruct (decide (ctx = Some 0)) as [->|Hctx];
      [cbn; auto using accepted_weaken|].
    rewrite loop_cons by exact Hctx.
    pose proof (handle_accepted bls st ev Hacc) as Hstep.
    destruct (handle bls st ev) as [st1|st1 err] eqn:Heq; [now apply IH|].
    cbn [fst snd]. split; [exact Hstep|].
    intros [[=]|[= ->]]. now apply handle_never_server_eof in Heq.
Qed.

(** X9: in every run, each transaction handed to [sendTransaction] other
    than the very last effect of the run was taken by the consumer (the
    call returned nil); when the run ends with a nil error or with
    [ErrServerEOF], every transaction was taken. *)
Theorem refused_transaction_is_last (bls : Streamer) ctx events :
  let run := parseEvents bls ctx events in
  accepted_but_last bls (trace (fst run))
  ∧ (snd run = None ∨ snd run = Some ErrServerEOF →
     accepted bls (trace (fst run))).
Proof. apply loop_accepted, accepted_nil. Qed.

(** X10: a run that used up the events [l1] and ended with [ErrServerEOF]
    is a prefix of the run over [l1 ++ l2]: the longer run is the run over
    [l2] from the state the shorter one ended in, the context being
    [length l1] events older. *)
Theorem runs_compose (bls : Streamer) ctx l1 l2 :
  ∀ st st1,
    loop bls ctx l1 st = (st1, Some ErrServerEOF) →
    loop bls ctx (l1 ++ l2) st
    = loop bls ((λ n, n - length l1) <$> ctx) l2 st1.
Proof.
  revert ctx. induction l1 as [|ev rest IH]; intros ctx st st1 Hrun.
  - destruct ctx as [[|n]|]; cbn in Hrun; [discriminate| |];
      injection Hrun as ->; reflexivity.
  - destruct (decide (ctx = Some 0)) as [->|Hctx]; [discriminate|].
    rewrite loop_cons in Hrun by exact Hctx.
    cbn [app]. rewrite loop_cons by exact Hctx.
    destruct (handle bls st ev) as [st2|st2 err] eqn:Heq.
    + rewrite (IH _ _ _ Hrun). f_equal.
      destruct ctx as [[|n]|]; [congruence|reflexivity|reflexivity].
    + injection Hrun as -> ->. now apply handle_never_server_eof in Heq.
Qed.

(** X11: a service found shutting down after [n] events makes the loop
    return without looking at any later event: the run is the run over the
    first [n] events. *)
Theorem shutdown_ignores_the_rest (bls : Streamer) n events :
  ∀ st, loop bls (Some n) events st = loop bls (Some n) (take n events) st.
Proof.
  revert n. induction events as [|ev rest IH]; intros n st.
  - now rewrite take_nil.
  - destruct n as [|n]; [reflexivity|].
    cbn [take loop fmap option_fmap option_map Nat.pred].
    destruct (handle bls st ev); [apply IH | reflexivity].
Qed.

Lemma loop_never_nil bls events : ∀ st, snd (loop bls None events st) ≠ None.
Proof.
  induction events as [|ev rest IH]; intros st; cbn; [discriminate|].
  destruct (handle bls st ev); [apply IH | discriminate].
Qed.


(** X5: with a service that never shuts down, neither [parseEvents] nor
    [Stream] returns a nil error: once the events are used up the run ends
    with an error. *)
Theorem nil_only_on_shutdown (bls : Streamer) :
  (∀ events, snd (parseEvents bls None events) ≠ None)
  ∧ snd (Stream bls None) ≠ None.
Proof.
  split; [intros events; apply loop_never_nil|].
  unfold Stream, Stream_run.
  destruct (NewSlaveConnection (mysqld bls)) as [err|conn]; [discriminate|].
  destruct (clientCharset bls) as [client|].
  - destruct (GetCharset conn) as [err|cs]; [discriminate|].
    destruct (bool_decide (cs ≠ client)); [discriminate|].
    destruct (StartBinlogDump conn (startPos bls)) as [err|events];
      [discriminate|].
    pose proof (loop_never_nil bls events (initial bls)) as Hrun.
    unfold parseEvents.
    destruct (loop bls None events (initial bls)) as [st [err|]]; cbn in *;
      [discriminate | congruence].
  - destruct (StartBinlogDump conn (startPos bls)) as [err|events];
      [discriminate|].
    pose proof (loop_never_nil bls events (initial bls)) as Hrun.
    unfold parseEvents.
    destruct (loop bls None events (initial bls)) as [st [err|]]; cbn in *;
      [discriminate | congruence].
Qed.

(** *** The position *)

Lemma position_after_closed bls :
  closed_under_assignments
    (λ st, pos st = position_after (startPos bls) (trace st)).
Proof.
  split; try (intros ? st Hst; exact Hst); try (intros st Hst; exact Hst).
  intros ts st Hst. cbn [record pos trace]. unfold position_after.
  rewrite omap_app. cbn. now rewrite app_nil_r.
Qed.

(** X6: the position [parseEvents] returns is [startPos] with the GTIDs
    the run folded appended, in the order of the folds. *)
Theorem position_is_start_plus_folds (bls : Streamer) ctx events :
  let st := fst (parseEvents bls ctx events) in
  pos st = position_after (startPos bls) (trace st).
Proof.
  cbv zeta. unfold parseEvents.
  apply (loop_closed _ bls (position_after_closed bls)); [|reflexivity].
  intros g st Hst. cbn [fold_gtid pos trace]. unfold position_after.
  rewrite omap_app, foldl_app. cbn. now rewrite Hst.
Qed.

(** *** The session *)

(** X4: if [Stream] has sent a transaction at all, then the connection was
    opened, the server charset was read and found equal to the charset the
    client declared (when it declared one), the dump was started at
    [startPos], and what was sent is what [parseEvents] sent for the events
    of that dump. *)
Theorem Stream_sends_only_after_precheck (bls : Streamer) ctx :
  fst (Stream bls ctx) ≠ [] →
  ∃ conn events,
    NewSlaveConnection (mysqld bls) = inr conn
    ∧ (∀ client, clientCharset bls = Some client → GetCharset conn = inr client)
    ∧ StartBinlogDump conn (startPos bls) = inr events
    ∧ fst (Stream bls ctx) = sent (fst (parseEvents bls ctx events)).
Proof.
  unfold Stream, Stream_run.
  destruct (NewSlaveConnection (mysqld bls)) as [err|conn] eqn:Hconn; [done|].
  destruct (clientCharset bls) as [client|] eqn:Hclient.
  - destruct (GetCharset conn) as [err|cs] eqn:Hcharset; [done|].
    destruct (bool_decide (cs ≠ client)) eqn:Hcs; [done|].
    apply bool_decide_eq_false in Hcs. apply dec_stable in Hcs as ->.
    destruct (StartBinlogDump conn (startPos bls)) as [err|events] eqn:Hdump;
      [done|].
    intros _. exists conn, events.
    split; [reflexivity|]. split; [|split; [exact Hdump|]].
    + now intros ? [= <-].
    + now destruct (parseEvents bls ctx events) as [st [err|]].
  - destruct (StartBinlogDump conn (startPos bls)) as [err|events] eqn:Hdump;
      [done|].
    intros _. exists conn, events.
    split; [reflexivity|]. split; [|split; [exact Hdump|]].
    + discriminate.
    + now destruct (parseEvents bls ctx events) as [st [err|]].
Qed.

(** *** The shape of a transaction *)

Lemma grouped_no_control l :
  grouped l → ∀ s, s ∈ l → st_Category s ∉ [BL_BEGIN; BL_COMMIT; BL_ROLLBACK].
Proof.
  induction 1 as [|l sql _ IH|l charset ts cat sql _ IH Hcat]; intros s Hs.
  - now apply elem_of_nil in Hs.
  - apply elem_of_app in Hs as [Hs|Hs]; [now apply IH|].
    apply list_elem_of_singleton in Hs as ->. cbn.
    rewrite !elem_of_cons, elem_of_nil. intuition discriminate.
  - apply elem_of_app in Hs as [Hs|Hs]; [now apply IH|].
    rewrite !elem_of_cons, elem_of_nil in Hs.
    destruct Hs as [->|[->|[]]]; cbn; [|exact Hcat].
    rewrite !elem_of_cons, elem_of_nil. intuition discriminate.
Qed.

Lemma all_grouped_assign v st :
  all_grouped st → grouped (elems v) → all_grouped (set_statements v st).
Proof. intros [_ Hsent] Hv. split; [exact Hv | exact Hsent]. Qed.

Lemma all_grouped_begin st : all_grouped st → all_grouped (begin st).
Proof.
  intros [_ Hsent]. split.
  - rewrite (proj1 (begin_opens st)). constructor.
  - intros trans Hin. apply Hsent. unfold begin in Hin.
    now destruct (statements st).
Qed.

Lemma all_grouped_fold g st : all_grouped st → all_grouped (fold_gtid g st).
Proof.
  intros [Hbuf Hsent]. split; [exact Hbuf|].
  intros trans Hin. apply Hsent. cbn in Hin.
  apply elem_of_app in Hin as [Hin|Hin]; [exact Hin|].
  apply list_elem_of_singleton in Hin. discriminate.
Qed.

Lemma all_grouped_commit bls ts st :
  all_grouped st → all_grouped (state_of (commit bls ts st)).
Proof.
  intros [Hbuf Hsent]. split.
  - destruct (commit_statements bls ts st) as [->| ->]; [constructor | exact Hbuf].
  - intros trans Hin. rewrite commit_trace in Hin.
    apply elem_of_app in Hin as [Hin|Hin]; [now apply Hsent|].
    apply list_elem_of_singleton in Hin. now injection Hin as ->.
Qed.

Lemma on_query_grouped bls st ev :
  all_grouped st → all_grouped (state_of (on_query bls st ev)).
Proof.
  intros Hst. unfold on_query.
  destruct (ev_Query ev (format st)) as [err|q]; [exact Hst|].
  destruct (getStatementCategory (q_SQL q)) eqn:Hcat;
    try (now apply all_grouped_begin);
    try (apply all_grouped_commit, all_grouped_assign; [exact Hst | constructor]);
    try (now apply all_grouped_commit).
  all: destruct (negb _ && negb _); [exact Hst|].
  all: match goal with
       | |- context [if autocommit ?s then _ else _] =>
           assert (all_grouped s) as Hpushed;
             [|destruct (autocommit s);
               [now apply all_grouped_commit | exact Hpushed]]
       end.
  all: apply all_grouped_assign; [exact Hst|].
  all: apply grouped_query; [apply Hst|].
  all: rewrite !elem_of_cons, elem_of_nil; intuition discriminate.
Qed.

Lemma dispatch_grouped bls st ev :
  all_grouped st → all_grouped (state_of (dispatch bls st ev)).
Proof.
  intros Hst. unfold dispatch.
  destruct (IsGTID ev).
  { destruct (IsBeginGTID ev (format st));
      [now apply all_grouped_begin | exact Hst]. }
  destruct (IsXID ev); [now apply all_grouped_commit|].
  destruct (IsIntVar ev).
  { destruct (IntVar ev (format st)) as [?|[name value]]; [exact Hst|].
    apply all_grouped_assign; [exact Hst|]. apply grouped_var, Hst. }
  destruct (IsRand ev).
  { destruct (Rand ev (format st)) as [?|[seed1 seed2]]; [exact Hst|].
    apply all_grouped_assign; [exact Hst|]. apply grouped_var, Hst. }
  destruct (IsQuery ev); [now apply on_query_grouped | exact Hst].
Qed.

Lemma handle_grouped bls st ev :
  all_grouped st → all_grouped (state_of (handle bls st ev)).
Proof.
  intros Hst. unfold handle.
  destruct (negb (IsValid ev)); [exact Hst|].
  destruct (IsFormatDescription ev).
  { destruct (Format ev); exact Hst. }
  destruct (IsZero (format st)).
  { destruct (IsRotate ev); exact Hst. }
  destruct (StripChecksum ev (format st)) as [ev' [err|]]; [exact Hst|].
  unfold absorb.
  destruct (HasGTID ev' (format st)); [|now apply dispatch_grouped].
  destruct (ev_GTID ev' (format st)) as [err|g]; [exact Hst|].
  now apply dispatch_grouped, all_grouped_fold.
Qed.

Lemma loop_grouped bls ctx events :
  ∀ st, all_grouped st → all_grouped (fst (loop bls ctx events st)).
Proof.
  revert ctx. induction events as [|ev rest IH]; intros ctx st Hst.
  - destruct ctx as [[|n]|]; exact Hst.
  - destruct (decide (ctx = Some 0)) as [->|Hctx]; [exact Hst|].
    rewrite loop_cons by exact Hctx.
    pose proof (handle_grouped bls st ev Hst) as Hnext.
    destruct (handle bls st ev); [now apply IH | exact Hnext].
Qed.

Lemma all_grouped_initial bls : all_grouped (initial bls).
Proof.
  split; [constructor|]. intros trans Hin. now apply elem_of_nil in Hin.
Qed.

Lemma sent_in_trace st trans : trans ∈ sent st → Sent trans ∈ trace st.
Proof.
  unfold sent. intros Hin.
  apply list_elem_of_omap in Hin as (e & He & Hsome).
  destruct e; [discriminate|]. cbn in Hsome. now injection Hsome as ->.
Qed.

(** The statements of every transaction sent have the shape [grouped]. *)
Lemma transactions_are_grouped (bls : Streamer) ctx events trans :
  trans ∈ sent (fst (parseEvents bls ctx events)) →
  grouped (elems (tx_Statements trans)).
Proof.
  intros Hin. apply sent_in_trace in Hin.
  now apply (loop_grouped bls ctx events (initial bls) (all_grouped_initial bls)).
Qed.

(** X13: no statement of a transaction sent has the category BEGIN, COMMIT
    or ROLLBACK: these queries only open and close transactions. *)
Theorem no_control_statement_is_sent (bls : Streamer) ctx events trans s :
  trans ∈ sent (fst (parseEvents bls ctx events)) →
  s ∈ elems (tx_Statements trans) →
  st_Category s ≠ BL_BEGIN ∧ st_Category s ≠ BL_COMMIT
  ∧ st_Category s ≠ BL_ROLLBACK.
Proof.
  intros Hin Hs. apply sent_in_trace in Hin.
  pose proof (loop_grouped bls ctx events (initial bls) (all_grouped_initial bls))
    as [_ Hsent].
  pose proof (grouped_no_control _ (Hsent trans Hin) s Hs) as Hcat.
  rewrite !elem_of_cons, elem_of_nil in Hcat. intuition.
Qed.

End Turns.

(** ** The further properties at scripted inputs *)

Module MoreScriptedRuns.
Import Scenarios.
#[local] Existing Instance scripted_unicode.
#[local] Existing Instance plain_replication.

Lemma getStatementCategory_ignores_case_witness :
  isASCII "ROLLBACK" = true ∧ isASCII "rollback" = true
  ∧ ToLower "ROLLBACK" = ToLower "rollback"
  ∧ getStatementCategory "ROLLBACK" = getStatementCategory "rollback".
Proof.
  split; [reflexivity|]. split; [reflexivity|]. split; [reflexivity|].
  apply (getStatementCategory_ignores_case "ROLLBACK" "rollback"); reflexivity.
Defined.

Lemma Stream_sends_only_after_precheck_witness :
  let events := autocommit_insert "db" "g1" in
  let bls := plain "db" (Some utf8) Fake.accept_all events in
  fst (Stream bls None) ≠ []
  ∧ ∃ conn events',
      NewSlaveConnection (mysqld bls) = inr conn
      ∧ (∀ client, clientCharset bls = Some client → GetCharset conn = inr client)
      ∧ StartBinlogDump conn (startPos bls) = inr events'
      ∧ fst (Stream bls None) = sent (fst (parseEvents bls None events')).
Proof.
  cbv zeta.
  assert (fst (Stream (plain "db" (Some utf8) Fake.accept_all
                         (autocommit_insert "db" "g1")) None) ≠ []) as Hsent.
  { vm_compute. discriminate. }
  split; [exact Hsent|].
  apply (Stream_sends_only_after_precheck _ None Hsent).
Defined.

Lemma client_eof_means_refused_witness :
  let events := autocommit_insert "db" "g1" in
  let bls := plain "db" None Fake.refuse_all events in
  snd (parseEvents bls None events) = Some ErrClientEOF
  ∧ ∃ tr trans,
      trace (fst (parseEvents bls None events)) = tr ++ [Sent trans]
      ∧ sendTransaction bls (omap sent_of tr) trans = Some io_EOF.
Proof.
  cbv zeta.
  assert (parseEvents (plain "db" None Fake.refuse_all (autocommit_insert "db" "g1"))
            None (autocommit_insert "db" "g1")
          = (fst (parseEvents (plain "db" None Fake.refuse_all
                                 (autocommit_insert "db" "g1"))
                    None (autocommit_insert "db" "g1")), Some ErrClientEOF))
    as Hrun.
  { rewrite (surjective_pairing (parseEvents _ _ _)) at 1. f_equal. }
  split; [now rewrite Hrun|].
  apply (client_eof_means_refused _ None _ _ Hrun).
Defined.

Lemma refused_transaction_is_last_witness :
  let events := autocommit_insert "db" "g1" in
  let bls := plain "db" None Fake.accept_all events in
  snd (parseEvents bls None events) = Some ErrServerEOF
  ∧ accepted bls (trace (fst (parseEvents bls None events))).
Proof.
  cbv zeta.
  assert (snd (parseEvents (plain "db" None Fake.accept_all
                              (autocommit_insert "db" "g1"))
                 None (autocommit_insert "db" "g1")) = Some ErrServerEOF) as Hend.
  { vm_compute. reflexivity. }
  split; [exact Hend|].
  apply (refused_transaction_is_last
           (plain "db" None Fake.accept_all (autocommit_insert "db" "g1"))
           None (autocommit_insert "db" "g1")).
  right. exact Hend.
Defined.

Lemma runs_compose_witness :
  let bls := plain "db" None Fake.accept_all [] in
  let l1 := [Fake.formatEvent 19; Fake.gtidEvent "g1" true] in
  let l2 := [Fake.queryEvent (mkQuery "db" None "insert into t values(1)") 100;
             Fake.xidEvent 100] in
  snd (loop bls None l1 (initial bls)) = Some ErrServerEOF
  ∧ loop bls None (l1 ++ l2) (initial bls)
    = loop bls ((λ n, n - length l1) <$> None) l2
        (fst (loop bls None l1 (initial bls))).
Proof.
  cbv zeta. split; [reflexivity|].
  apply (runs_compose (plain "db" None Fake.accept_all []) None
           [Fake.formatEvent 19; Fake.gtidEvent "g1" true]).
  reflexivity.
Defined.

Lemma no_control_statement_is_sent_witness :
  let bls := plain "db" None Fake.accept_all [] in
  let events := explicit_insert "db" "g1" in
  let s := mkStatement BL_DML None "insert into t values(1)" in
  insert_transaction (λ g, g) "g1" ∈ sent (fst (parseEvents bls None events))
  ∧ s ∈ elems (tx_Statements (insert_transaction (λ g, g) "g1"))
  ∧ st_Category s ≠ BL_BEGIN ∧ st_Category s ≠ BL_COMMIT
  ∧ st_Category s ≠ BL_ROLLBACK.
Proof.
  cbv zeta.
  assert (insert_transaction (λ g, g) "g1"
          ∈ sent (fst (parseEvents (plain "db" None Fake.accept_all []) None
                         (explicit_insert "db" "g1")))) as Hsent.
  { vm_compute. constructor. }
  assert (mkStatement BL_DML None "insert into t values(1)"
          ∈ elems (tx_Statements (insert_transaction (λ g, g) "g1"))) as Hs.
  { cbn. rewrite !elem_of_cons. auto. }
  split; [exact Hsent|]. split; [exact Hs|].
  apply (no_control_statement_is_sent _ None _ _ _ Hsent Hs).
Defined.

End MoreScriptedRuns.

(** * Buffered statements and the events they come from *)

Section Persistence.
Context `{Unicode} `{Replication}.



End Persistence.

Section Waiting.
Context `{Unicode} `{Replication}.

End Waiting.

Section Made.
Context `{Unicode} `{Replication}.

(** *** Transactions follow the events *)

Lemma made_from_more bls events l more :
  made_from bls events l → made_from bls (events ++ more) l.
Proof.
  intros Hl. induction more as [|ev more IH] using rev_ind.
  - now rewrite app_nil_r.
  - rewrite app_assoc. now apply made_skip.
Qed.

Lemma made_from_none bls events : made_from bls events [].
Proof. apply (made_from_more bls [] [] events). constructor. Qed.

Lemma all_made_more bls seen more st :
  all_made bls seen st → all_made bls (seen ++ more) st.
Proof.
  intros [Hbuf Hsent]. split; [now apply made_from_more|].
  intros trans Hin. now apply made_from_more, Hsent.
Qed.

Lemma all_made_assign bls seen v st :
  all_made bls seen st → made_from bls seen (elems v) →
  all_made bls seen (set_statements v st).
Proof. intros [_ Hsent] Hv. split; [exact Hv | exact Hsent]. Qed.

Lemma all_made_begin bls seen st :
  all_made bls seen st → all_made bls seen (begin st).
Proof.
  intros [_ Hsent]. split.
  - rewrite (proj1 (begin_opens st)). apply made_from_none.
  - intros trans Hin. apply Hsent. unfold begin in Hin.
    now destruct (statements st).
Qed.

Lemma all_made_fold bls seen g st :
  all_made bls seen st → all_made bls seen (fold_gtid g st).
Proof.
  intros [Hbuf Hsent]. split; [exact Hbuf|].
  intros trans Hin. apply Hsent. cbn in Hin.
  apply elem_of_app in Hin as [Hin|Hin]; [exact Hin|].
  apply list_elem_of_singleton in Hin. discriminate.
Qed.

Lemma all_made_commit bls seen ts st :
  all_made bls seen st → all_made bls seen (state_of (commit bls ts st)).
Proof.
  intros [Hbuf Hsent]. split.
  - destruct (commit_statements bls ts st) as [->| ->];
      [apply made_from_none | exact Hbuf].
  - intros trans Hin. rewrite commit_trace in Hin.
    apply elem_of_app in Hin as [Hin|Hin]; [now apply Hsent|].
    apply list_elem_of_singleton in Hin. now injection Hin as ->.
Qed.

(** The buffer after the group [g] of the event [ev] is appended. *)
Lemma all_made_push bls seen ev f g st :
  all_made bls seen st → group_of bls f ev g →
  all_made bls (seen ++ [ev])
    (set_statements (append (statements st) g) st).
Proof.
  intros [Hbuf Hsent] Hg. split.
  - cbn. now apply (made_group bls seen ev f).
  - intros trans Hin. now apply made_skip, Hsent.
Qed.

Section Turn.
Variables (bls : Streamer) (seen : list BinlogEvent) (ev ev' : BinlogEvent).
Variable st : State.
Hypothesis Hstrip : fst (StripChecksum ev (format st)) = ev'.

Lemma on_query_made :
  IsGTID ev' = false → IsXID ev' = false → IsIntVar ev' = false →
  IsRand ev' = false → IsQuery ev' = true →
  all_made bls seen st →
  all_made bls (seen ++ [ev]) (state_of (on_query bls st ev')).
Proof.
  intros HG HX HI HR HQ Hst.
  pose proof (all_made_more bls seen [ev] st Hst) as Hwide.
  unfold on_query.
  destruct (ev_Query ev' (format st)) as [err|q] eqn:Hq; [exact Hwide|].
  destruct (getStatementCategory (q_SQL q)) eqn:Hcat;
    try (now apply all_made_begin);
    try (apply all_made_commit, all_made_assign;
         [exact Hwide | apply made_from_none]);
    try (now apply all_made_commit).
  all: destruct (negb (String.eqb (q_Database q) "")
                 && negb (String.eqb (q_Database q) (dbname bls))) eqn:Hdb;
         [exact Hwide|].
  all: match goal with
       | |- context [if autocommit ?s then _ else _] =>
           assert (all_made bls (seen ++ [ev]) s) as Hpushed;
             [|destruct (autocommit s);
               [now apply all_made_commit | exact Hpushed]]
       end.
  all: apply (all_made_push bls seen ev (format st)); [exact Hst|].
  all: unfold group_of; rewrite Hstrip.
  all: split; [exact HG|]; split; [exact HX|].
  all: right; right; split; [exact HI|]; split; [exact HR|]; split; [exact HQ|].
  all: exists q; split; [exact Hq|]; split;
         [rewrite Hcat, !elem_of_cons, elem_of_nil; intuition discriminate|].
  all: split; [|unfold query_statements; now rewrite Hcat].
  all: apply andb_false_iff in Hdb as [Hdb|Hdb];
         apply negb_false_iff, String.eqb_eq in Hdb; auto.
Qed.

Lemma dispatch_made :
  all_made bls seen st →
  all_made bls (seen ++ [ev]) (state_of (dispatch bls st ev')).
Proof.
  intros Hst. pose proof (all_made_more bls seen [ev] st Hst) as Hwide.
  unfold dispatch.
  destruct (IsGTID ev') eqn:HG.
  { destruct (IsBeginGTID ev' (format st));
      [now apply all_made_begin | exact Hwide]. }
  destruct (IsXID ev') eqn:HX; [now apply all_made_commit|].
  destruct (IsIntVar ev') eqn:HI.
  { destruct (IntVar ev' (format st)) as [?|[name value]] eqn:Hvar;
      [exact Hwide|].
    apply (all_made_push bls seen ev (format st)); [exact Hst|].
    unfold group_of. rewrite Hstrip.
    split; [exact HG|]. split; [exact HX|]. left. eauto. }
  destruct (IsRand ev') eqn:HR.
  { destruct (Rand ev' (format st)) as [?|[seed1 seed2]] eqn:Hvar;
      [exact Hwide|].
    apply (all_made_push bls seen ev (format st)); [exact Hst|].
    unfold group_of. rewrite Hstrip.
    split; [exact HG|]. split; [exact HX|]. right. left. eauto 6. }
  destruct (IsQuery ev') eqn:HQ; [now apply on_query_made | exact Hwide].
Qed.

End Turn.

Lemma handle_made bls seen ev st :
  all_made bls seen st →
  all_made bls (seen ++ [ev]) (state_of (handle bls st ev)).
Proof.
  intros Hst. pose proof (all_made_more bls seen [ev] st Hst) as Hwide.
  unfold handle.
  destruct (negb (IsValid ev)); [exact Hwide|].
  destruct (IsFormatDescription ev).
  { destruct (Format ev); exact Hwide. }
  destruct (IsZero (format st)).
  { destruct (IsRotate ev); exact Hwide. }
  destruct (StripChecksum ev (format st)) as [ev' [err|]] eqn:Hstrip;
    [exact Hwide|].
  unfold absorb.
  destruct (HasGTID ev' (format st)).
  - destruct (ev_GTID ev' (format st)) as [err|g]; [exact Hwide|].
    apply dispatch_made; [cbn; now rewrite Hstrip | now apply all_made_fold].
  - apply dispatch_made; [now rewrite Hstrip | exact Hst].
Qed.

Lemma loop_made bls ctx events :
  ∀ seen st,
    all_made bls seen st →
    all_made bls (seen ++ events) (fst (loop bls ctx events st)).
Proof.
  revert ctx. induction events as [|ev rest IH]; intros ctx seen st Hst.
  - rewrite app_nil_r. destruct ctx as [[|n]|]; exact Hst.
  - destruct (decide (ctx = Some 0)) as [->|Hctx];
      [now apply all_made_more|].
    rewrite loop_cons by exact Hctx.
    pose proof (handle_made bls seen ev st Hst) as Hnext.
    rewrite (cons_middle ev), app_assoc.
    destruct (handle bls st ev) as [st1|st1 err];
      [now apply IH | now apply all_made_more].
Qed.

(** X12: in every run, the statements of each transaction sent are the
    groups made from some of the events of the run, each event giving at
    most one group, the groups in the order of their events: for an INTVAR
    or RAND event its one SET statement without charset, for a query event
    that is no BEGIN, COMMIT or ROLLBACK and not on another database its
    SET TIMESTAMP statement immediately followed by the statement itself,
    both with the same charset field. *)
Theorem transactions_follow_events (bls : Streamer) ctx events trans :
  trans ∈ sent (fst (parseEvents bls ctx events)) →
  made_from bls events (elems (tx_Statements trans)).
Proof.
  intros Hin. apply sent_in_trace in Hin.
  assert (all_made bls [] (initial bls)) as Hinit.
  { split; [constructor|]. intros t Ht. now apply elem_of_nil in Ht. }
  now apply (loop_made bls ctx events [] (initial bls) Hinit).
Qed.

End Made.

(** ** At scripted inputs *)

Module RevisedRuns.
Import Scenarios.
#[local] Existing Instance scripted_unicode.
#[local] Existing Instance plain_replication.



Lemma transactions_follow_events_witness :
  let bls := plain "db" None Fake.accept_all [] in
  let events := mixed_db "db" "g1" in
  insert_transaction (λ g, g) "g1" ∈ sent (fst (parseEvents bls None events))
  ∧ made_from bls events (elems (tx_Statements (insert_transaction (λ g, g) "g1"))).
Proof.
  cbv zeta.
  assert (insert_transaction (λ g, g) "g1"
          ∈ sent (fst (parseEvents (plain "db" None Fake.accept_all []) None
                         (mixed_db "db" "g1")))) as Hsent.
  { vm_compute. constructor. }
  split; [exact Hsent|].
  apply (transactions_follow_events _ None _ _ Hsent).
Defined.

End RevisedRuns.
